(** * ansible-signatory: the command-line front end ([ansible_signatory/cli.py])

    A shallow embedding of [cli.py] and a verification of what its
    specification says about it.  The module builds an [argparse] parser with
    three sub-commands, chooses a "differ" (the component that enumerates the
    files of a project) and drives [ChecksumFile.parse] / [ChecksumFile.verify].

    Layout:
    - [FS]        the file system the handlers read: a tree of directories and
                  regular files, with POSIX path resolution;
    - [Py]        the effects of the handlers: raised exceptions and an ordered
                  log of everything observable (system calls, calls into the
                  [checksum] package, printed lines);
    - [Argparse]  the part of CPython's [argparse] that [parse_args] relies on;
    - [Cli]       the functions of [cli.py] themselves;
    - the theorems, one group per property of the specification. *)

From Stdlib Require Import ZArith Ascii String List Bool Lia.
From stdpp Require Import base option list strings gmap.

Set Warnings "-register-all".
Local Open Scope Z_scope.
Local Open Scope string_scope.
Local Open Scope list_scope.

(* ===================================================================== *)
(** * The file system *)
(* ===================================================================== *)

Module FS.

(** A directory keeps its entries in the order the operating system reports
    them, which [os.listdir] leaves unspecified: an association list. *)
Inductive node :=
| File (content : string)
| Dir (entries : list (string * node)).

(** The errno values the handlers can run into. *)
Inductive errno := ENOENT | ENOTDIR | EISDIR.

Record World := {
  fs_root : node;          (* the directory "/" *)
  cwd : list string        (* the working directory, as components from "/" *)
}.

Fixpoint lookup_entry (name : string) (es : list (string * node)) : option node :=
  match es with
  | [] => None
  | (n, x) :: es' => if String.eqb n name then Some x else lookup_entry name es'
  end.

(** [str.split(sep)] for a one-character separator. *)
Fixpoint split_on (sep : ascii) (s : string) : list string :=
  match s with
  | EmptyString => [EmptyString]
  | String c s' =>
      if Ascii.eqb c sep then EmptyString :: split_on sep s'
      else match split_on sep s' with
           | [] => [String c EmptyString]
           | w :: ws => String c w :: ws
           end
  end.

(** One component of a path walk.  The stack holds the directories entered so
    far, innermost first; its last element is "/".  Every component, also
    "", "." and "..", needs the current node to be a directory. *)
Definition step (stack : list node) (c : string) : errno + list node :=
  match stack with
  | [] => inl ENOENT
  | File _ :: _ => inl ENOTDIR
  | Dir es :: up =>
      if String.eqb c "" || String.eqb c "." then inr stack
      else if String.eqb c ".." then
        inr (match up with [] => stack | _ :: _ => up end)
      else match lookup_entry c es with
           | Some n => inr (n :: stack)
           | None => inl ENOENT
           end
  end.

Fixpoint walk (stack : list node) (cs : list string) : errno + list node :=
  match cs with
  | [] => inr stack
  | c :: cs' =>
      match step stack c with
      | inl e => inl e
      | inr stack' => walk stack' cs'
      end
  end.

Definition is_absolute (p : string) : bool :=
  match p with
  | String c _ => Ascii.eqb c "/"
  | EmptyString => false
  end.

(** Path resolution: the empty path names nothing; an absolute path starts at
    "/", any other at the working directory. *)
Definition resolve (w : World) (p : string) : errno + node :=
  if String.eqb p "" then inl ENOENT
  else
    let start :=
      if is_absolute p then inr [fs_root w] else walk [fs_root w] (cwd w) in
    match start with
    | inl e => inl e
    | inr stack =>
        match walk stack (split_on "/" p) with
        | inl e => inl e
        | inr [] => inl ENOENT
        | inr (n :: _) => inr n
        end
    end.

(** [os.listdir]: the names of the immediate children, "." and ".." left out. *)
Definition listdir (w : World) (p : string) : errno + list string :=
  match resolve w p with
  | inl e => inl e
  | inr (Dir es) => inr (map fst es)
  | inr (File _) => inl ENOTDIR
  end.

(** [os.path.exists]: any failure of the lookup is "does not exist". *)
Definition exists_ (w : World) (p : string) : bool :=
  match resolve w p with
  | inl _ => false
  | inr _ => true
  end.

(** [open(p, 'r').read()]. *)
Definition read_text (w : World) (p : string) : errno + string :=
  match resolve w p with
  | inl e => inl e
  | inr (File s) => inr s
  | inr (Dir _) => inl EISDIR
  end.

End FS.

(* ===================================================================== *)
(** * The argument parser *)
(* ===================================================================== *)

(** The part of CPython 3.11's [argparse] that [parse_args] uses: options
    given exactly, as [--opt=value] or by a unique prefix; options that take
    one argument ([store]) or none ([store_true], [store_const], [help],
    [version]); positionals that take one argument; the [--] separator;
    required sub-commands, whose parser receives everything after the
    command name; [choices]; defaults and [set_defaults].  Usage and help
    texts are not rendered. *)
Module Argparse.

(** The functions [set_defaults(func=...)] stores, as values. *)
Inductive handler :=
| fn_validate_checksum
| fn_validate_gpg_signature
| fn_checksum_manifest.

Inductive value :=
| VNone
| VBool (b : bool)
| VInt (z : Z)
| VStr (s : string)
| VFunc (h : handler).

Inductive action_kind :=
| Store
| StoreTrue
| StoreConst (const : value)
| Version (text : string)
| Help.

(** One [add_argument] call.  [option_strings = []] makes a positional;
    [default = None] is [argparse.SUPPRESS] (no attribute is set). *)
Record Argument := {
  option_strings : list string;
  dest : string;
  action : action_kind;
  default : option value;
  choices : option (list string);
  required : bool;
  metavar : option string;
  help : string
}.

(** One [add_parser] call with its [set_defaults] and [add_argument]s. *)
Record SubParser := {
  sp_name : string;
  sp_help : string;
  sp_defaults : list (string * value);
  sp_arguments : list Argument
}.

(** The top-level parser: its options and its [add_subparsers] group. *)
Record ArgumentParser := {
  description : string;
  arguments : list Argument;
  sub_required : bool;
  sub_dest : string;
  commands : list SubParser
}.

Inductive error :=
| InvalidChoice (arg : string) (given : string) (allowed : list string)
| ExpectedOneArgument (arg : string)
| IgnoredExplicitArgument (arg : string) (given : string)
| AmbiguousOption (given : string) (candidates : list string)
| RequiredMissing (names : list string)
| UnrecognizedArguments (extras : list string).

(** [parser.exit()] after printing the help or the version text. *)
Inductive printed := HelpText | VersionText (text : string).

(** A parse ends with a namespace, with [parser.error] (exit status 2) or
    with [parser.exit()] (exit status 0). *)
Inductive result (A : Type) :=
| Parsed (a : A)
| Error (e : error)
| Exit (what : printed).
Arguments Parsed {A} a.
Arguments Error {A} e.
Arguments Exit {A} what.

(** ** Strings *)

Definition is_dash (c : ascii) : bool := Ascii.eqb c "-".

Fixpoint split_first (sep : ascii) (s : string) : option (string * string) :=
  match s with
  | EmptyString => None
  | String c s' =>
      if Ascii.eqb c sep then Some (EmptyString, s')
      else match split_first sep s' with
           | Some (a, b) => Some (String c a, b)
           | None => None
           end
  end.

Fixpoint contains (c : ascii) (s : string) : bool :=
  match s with
  | EmptyString => false
  | String c' s' => Ascii.eqb c' c || contains c s'
  end.

Definition is_digit (c : ascii) : bool :=
  let n := nat_of_ascii c in Nat.leb 48 n && Nat.leb n 57.

Fixpoint drop_digits (s : string) : string :=
  match s with
  | String c s' => if is_digit c then drop_digits s' else s
  | EmptyString => s
  end.

Definition digits1 (s : string) : bool :=
  negb (String.eqb s "") && String.eqb (drop_digits s) "".

(** The pattern [^-\d+$|^-\d*\.\d+$]. *)
Definition negative_number (s : string) : bool :=
  match s with
  | String c r =>
      is_dash c &&
      (digits1 r ||
       match drop_digits r with
       | String d r' => Ascii.eqb d "." && digits1 r'
       | EmptyString => false
       end)
  | EmptyString => false
  end.

(** ** Reading one argument string: [_parse_optional] *)

(** [_option_string_actions], in insertion order. *)
Definition option_table (args : list Argument) : list (string * Argument) :=
  flat_map (fun a => map (fun s => (s, a)) (option_strings a)) args.

Fixpoint lookup_option (tbl : list (string * Argument)) (s : string) : option Argument :=
  match tbl with
  | [] => None
  | (o, a) :: tbl' => if String.eqb o s then Some a else lookup_option tbl' s
  end.

(** How an argument string reads: ['A'], ['O'] (an option of this parser, or
    one it does not know), and ['-'] for the first [--]. *)
Inductive tclass :=
| TA
| TO (a : Argument) (opt : string) (explicit : option string)
| TUnknown
| TDashes.

Definition double_dash (s : string) : bool :=
  match s with
  | String c1 (String c2 _) => is_dash c1 && is_dash c2
  | _ => false
  end.

(** [_get_option_tuples]: the options an abbreviation may stand for. *)
Definition get_option_tuples (tbl : list (string * Argument)) (s : string)
  : list (Argument * string * option string) :=
  if double_dash s then
    let '(option_prefix, explicit_arg) :=
      match split_first "=" s with
      | Some (p, e) => (p, Some e)
      | None => (s, None)
      end in
    omap (fun '(o, a) =>
            if String.prefix option_prefix o then Some (a, o, explicit_arg) else None)
         tbl
  else
    let short_option_prefix := substring 0 2 s in
    let short_explicit_arg := substring 2 (String.length s - 2) s in
    omap (fun '(o, a) =>
            if String.eqb o short_option_prefix then Some (a, o, Some short_explicit_arg)
            else if String.prefix s o then Some (a, o, None)
            else None)
         tbl.

Definition has_negative_number_optionals (tbl : list (string * Argument)) : bool :=
  existsb (fun '(o, _) => negative_number o) tbl.

Definition parse_optional (tbl : list (string * Argument)) (s : string) : error + tclass :=
  match s with
  | EmptyString => inr TA
  | String c rest =>
      if negb (is_dash c) then inr TA
      else match lookup_option tbl s with
      | Some a => inr (TO a s None)
      | None =>
      if String.eqb rest "" then inr TA
      else
      let by_equals :=
        match split_first "=" s with
        | Some (o, e) =>
            match lookup_option tbl o with
            | Some a => Some (TO a o (Some e))
            | None => None
            end
        | None => None
        end in
      match by_equals with
      | Some t => inr t
      | None =>
      match get_option_tuples tbl s with
      | (_ :: _ :: _) as l => inl (AmbiguousOption s (map (fun x => snd (fst x)) l))
      | [(a, o, e)] => inr (TO a o e)
      | [] =>
          if negative_number s && negb (has_negative_number_optionals tbl) then inr TA
          else if contains " " s then inr TA
          else inr TUnknown
      end
      end
      end
  end.

(** The pattern of the whole argument list: every string after the first
    [--] is an ['A']. *)
Fixpoint classify (tbl : list (string * Argument)) (args : list string)
  : error + list (string * tclass) :=
  match args with
  | [] => inr []
  | s :: rest =>
      if String.eqb s "--" then inr ((s, TDashes) :: map (fun x => (x, TA)) rest)
      else match parse_optional tbl s with
           | inl e => inl e
           | inr c =>
               match classify tbl rest with
               | inl e => inl e
               | inr cs => inr ((s, c) :: cs)
               end
           end
  end.

(** ** Taking actions *)

(** The state of one [parse_known_args] run.  [taken] and [spilled] describe
    the current stretch of ['A'] strings (since the last option): how many of
    them a positional consumed, and whether one was left over. *)
Record state := {
  ns : gmap string value;
  pending : list Argument;
  seen : list string;
  extras : list string;
  taken : nat;
  spilled : bool
}.

Definition set_attr (d : string) (v : value) (st : state) : state :=
  {| ns := <[d := v]> (ns st); pending := pending st; seen := d :: seen st;
     extras := extras st; taken := taken st; spilled := spilled st |}.

Definition add_extra (s : string) (st : state) : state :=
  {| ns := ns st; pending := pending st; seen := seen st;
     extras := extras st ++ [s]; taken := taken st; spilled := spilled st |}.

Definition set_run (n : nat) (b : bool) (st : state) : state :=
  {| ns := ns st; pending := pending st; seen := seen st;
     extras := extras st; taken := n; spilled := b |}.

Definition set_pending (ps : list Argument) (st : state) : state :=
  {| ns := ns st; pending := ps; seen := seen st;
     extras := extras st; taken := taken st; spilled := spilled st |}.

(** [_get_action_name]. *)
Definition action_name (a : Argument) : string :=
  match option_strings a with
  | _ :: _ => String.concat "/" (option_strings a)
  | [] => match metavar a with Some m => m | None => dest a end
  end.

Definition member (s : string) (l : list string) : bool :=
  existsb (String.eqb s) l.

(** [_check_value]: a value outside [choices] is an error. *)
Definition check_value (a : Argument) (v : string) : option error :=
  match choices a with
  | Some allowed =>
      if member v allowed then None else Some (InvalidChoice (action_name a) v allowed)
  | None => None
  end.

Definition takes_argument (a : Argument) : bool :=
  match action a with
  | Store => true
  | _ => false
  end.

(** [take_action]: the argument is checked, then the action runs. *)
Definition take_action (a : Argument) (v : option string) (st : state) : result state :=
  match action a with
  | Store =>
      match v with
      | Some s =>
          match check_value a s with
          | Some e => Error e
          | None => Parsed (set_attr (dest a) (VStr s) st)
          end
      | None => Error (ExpectedOneArgument (action_name a))
      end
  | StoreTrue => Parsed (set_attr (dest a) (VBool true) st)
  | StoreConst c => Parsed (set_attr (dest a) c st)
  | Version text => Exit (VersionText text)
  | Help => Exit HelpText
  end.

Fixpoint take_all (l : list Argument) (st : state) : result state :=
  match l with
  | [] => Parsed st
  | a :: l' =>
      match take_action a None st with
      | Parsed st' => take_all l' st'
      | r => r
      end
  end.

(** What an option string with an explicit argument stands for: the action
    that receives the argument, or (a run of one-letter flags, [-xyz]) the
    last flag, which has none left. *)
Inductive resolved :=
| RValue (a : Argument) (v : string)
| RNext (a : Argument).

(** The loop of [consume_optional] for an explicit argument.  [pre] collects
    the one-letter flags passed on the way. *)
Fixpoint resolve_explicit (tbl : list (string * Argument)) (a : Argument)
    (opt : string) (e : string) (pre : list Argument)
  : error + list Argument * resolved :=
  if takes_argument a then inr (pre, RValue a e)
  else if double_dash opt then inl (IgnoredExplicitArgument (action_name a) e)
  else
    match e with
    | EmptyString => inl (IgnoredExplicitArgument (action_name a) e)
    | String c e' =>
        let opt' := String "-" (String c EmptyString) in
        match lookup_option tbl opt' with
        | None => inl (IgnoredExplicitArgument (action_name a) e)
        | Some a' =>
            match e' with
            | EmptyString => inr (pre ++ [a], RNext a')
            | String _ _ => resolve_explicit tbl a' opt' e' (pre ++ [a])
            end
        end
    end.

(** An ['A'] string: the next positional takes it, or it is left over. *)
Definition positional (s : string) (st : state) : result state :=
  match pending st with
  | p :: ps =>
      take_action p (Some s) (set_run (S (taken st)) (spilled st) (set_pending ps st))
  | [] => Parsed (set_run (taken st) true (add_extra s st))
  end.

(** The [--] string.  A positional's pattern is [-*A-*]: the [--] goes with a
    positional consumed just before it, or with one consumed right after it;
    otherwise it is left over. *)
Definition dashes (s : string) (more : bool) (st : state) : state :=
  if spilled st then add_extra s st
  else if negb (Nat.eqb (taken st) 0) then st
  else
    match pending st with
    | _ :: _ => if more then st else add_extra s st
    | [] => add_extra s st
    end.

Definition nonempty {A} (l : list A) : bool :=
  match l with
  | [] => false
  | _ :: _ => true
  end.

(** The main loop of [_parse_known_args] over the classified strings.  [sub]
    is the sub-command group, when the parser has one: it takes the first
    ['A'] string and everything after it. *)
Fixpoint consume (tbl : list (string * Argument))
    (sub : option (list string -> state -> result state))
    (cs : list (string * tclass)) (st : state) : result state :=
  match cs with
  | [] => Parsed st
  | (s, TA) :: rest =>
      match sub with
      | Some f => f (s :: map fst rest) st
      | None =>
          match positional s st with
          | Parsed st' => consume tbl sub rest st'
          | r => r
          end
      end
  | (s, TDashes) :: rest =>
      match sub, rest with
      | Some f, _ :: _ => f (s :: map fst rest) st
      | _, _ => consume tbl sub rest (dashes s (nonempty rest) st)
      end
  | (s, TUnknown) :: rest => consume tbl sub rest (set_run 0 false (add_extra s st))
  | (s, TO a opt explicit) :: rest =>
      let r :=
        match explicit with
        | Some e => resolve_explicit tbl a opt e []
        | None => inr ([], RNext a)
        end in
      match r with
      | inl e => Error e
      | inr (pre, RValue a' v) =>
          match take_all pre (set_run 0 false st) with
          | Parsed st1 =>
              match take_action a' (Some v) st1 with
              | Parsed st2 => consume tbl sub rest st2
              | r' => r'
              end
          | r' => r'
          end
      | inr (pre, RNext a') =>
          if takes_argument a' then
            match rest with
            | (v, TA) :: rest' =>
                match take_all pre (set_run 0 false st) with
                | Parsed st1 =>
                    match take_action a' (Some v) st1 with
                    | Parsed st2 => consume tbl sub rest' st2
                    | r' => r'
                    end
                | r' => r'
                end
            | _ => Error (ExpectedOneArgument (action_name a'))
            end
          else
            match take_all pre (set_run 0 false st) with
            | Parsed st1 =>
                match take_action a' None st1 with
                | Parsed st2 => consume tbl sub rest st2
                | r' => r'
                end
            | r' => r'
            end
      end
  end.

(** ** Whole parsers *)

(** Every parser gets [-h/--help] first ([add_help=True]). *)
Definition help_action : Argument :=
  {| option_strings := ["-h"; "--help"]; dest := "help"; action := Help;
     default := None; choices := None; required := false; metavar := None;
     help := "show this help message and exit" |}.

Definition add_default (m : gmap string value) (d : string) (v : value)
  : gmap string value :=
  match m !! d with
  | Some _ => m
  | None => <[d := v]> m
  end.

(** The namespace before any argument is read: every action's default, then
    the parser's [set_defaults], each only where nothing is set yet. *)
Definition initial_namespace (args : list Argument) (defaults : list (string * value))
    (base : gmap string value) : gmap string value :=
  fold_left (fun m '(d, v) => add_default m d v) defaults
    (fold_left (fun m a => match default a with
                           | Some v => add_default m (dest a) v
                           | None => m
                           end) args base).

Definition is_positional (a : Argument) : bool :=
  match option_strings a with
  | [] => true
  | _ :: _ => false
  end.

Definition missing_required (args : list Argument) (st : state) : list string :=
  map action_name
    (filter (fun a => required a && negb (member (dest a) (seen st))) args).

(** [parse_known_args] of a parser without sub-commands. *)
Definition parse_known_args (args : list Argument) (defaults : list (string * value))
    (argv : list string) : result (gmap string value * list string) :=
  let tbl := option_table args in
  match classify tbl argv with
  | inl e => Error e
  | inr cs =>
      let st0 := {| ns := initial_namespace args defaults ∅;
                    pending := filter is_positional args;
                    seen := []; extras := []; taken := 0; spilled := false |} in
      match consume tbl None cs st0 with
      | Parsed st =>
          match missing_required args st with
          | [] => Parsed (ns st, extras st)
          | names => Error (RequiredMissing names)
          end
      | Error e => Error e
      | Exit w => Exit w
      end
  end.

(** [_SubParsersAction.__call__]: the command name is stored and checked, the
    command's parser reads the rest into a namespace of its own, and that
    namespace is copied over the parent's. *)
Definition run_subcommand (p : ArgumentParser) (values : list string) (st : state)
  : result state :=
  match values with
  | [] => Parsed st
  | name :: argv =>
      match find (fun sp => String.eqb (sp_name sp) name) (commands p) with
      | None => Error (InvalidChoice (sub_dest p) name (map sp_name (commands p)))
      | Some sp =>
          match parse_known_args (help_action :: sp_arguments sp) (sp_defaults sp) argv with
          | Parsed (subns, more) =>
              Parsed {| ns := subns ∪ <[sub_dest p := VStr name]> (ns st);
                        pending := pending st;
                        seen := sub_dest p :: seen st;
                        extras := extras st ++ more;
                        taken := taken st; spilled := spilled st |}
          | Error e => Error e
          | Exit w => Exit w
          end
      end
  end.

(** [ArgumentParser.parse_args]. *)
Definition parse_args (p : ArgumentParser) (argv : list string)
  : result (gmap string value) :=
  let args := help_action :: arguments p in
  let tbl := option_table args in
  match classify tbl argv with
  | inl e => Error e
  | inr cs =>
      let st0 := {| ns := initial_namespace args [] {[ sub_dest p := VNone ]};
                    pending := []; seen := []; extras := [];
                    taken := 0; spilled := false |} in
      match consume tbl (Some (run_subcommand p)) cs st0 with
      | Parsed st =>
          let missing :=
            missing_required args st ++
            (if sub_required p && negb (member (sub_dest p) (seen st))
             then [sub_dest p] else []) in
          match missing, extras st with
          | [], [] => Parsed (ns st)
          | [], ex => Error (UnrecognizedArguments ex)
          | names, _ => Error (RequiredMissing names)
          end
      | Error e => Error e
      | Exit w => Exit w
      end
  end.

End Argparse.

(* ===================================================================== *)
(** * Effects: exceptions and the observable log *)
(* ===================================================================== *)

Module Py.

(** The two classes [DIFFER_MAP] refers to.  They are only selected and handed
    on by [cli.py]; what they enumerate is decided in [checksum.differ]. *)
Inductive Differ :=
| GitChecksumFileExistenceDiffer
| DirectoryChecksumFileExistenceDiffer.

(** [OSError e p] stands for [FileNotFoundError], [NotADirectoryError] and
    [IsADirectoryError], by errno.  [ChecksumMismatch msg] carries [str(e)].
    [OtherError] is any other exception a function of the [checksum] package
    raises. *)
Inductive exn :=
| OSError (e : FS.errno) (path : string)
| KeyError (key : string)
| AttributeError (name : string)
| ChecksumMismatch (msg : string)
| SystemExit (code : Z)
| OtherError (what : string).

Inductive event :=
| EvListdir (path : string)                       (* os.listdir *)
| EvExists (path : string)                        (* os.path.exists *)
| EvOpenRead (path : string)                      (* open(path, 'r').read() *)
| EvNew (root : string) (d : Differ)              (* ChecksumFile(root, differ=d) *)
| EvParse (text : string)                         (* checksum.parse(text) *)
| EvVerify (root : string) (d : Differ) (diff : bool)   (* checksum.verify(m, diff=..) *)
| EvPrint (line : string)                         (* print(line) *)
| EvHelp                                          (* argparse prints the help text *)
| EvUsageError (e : Argparse.error)               (* argparse's message on stderr *)
| EvLog (level : Z) (msg : string).               (* a record the logger emits *)

Inductive outcome (A : Type) :=
| Return (a : A)
| Raise (e : exn).
Arguments Return {A} a.
Arguments Raise {A} e.

(** A computation reads the world and yields an outcome together with the
    events it caused, oldest first. *)
Definition M (A : Type) : Type := FS.World -> outcome A * list event.

Definition ret {A} (a : A) : M A := fun _ => (Return a, []).
Definition raise {A} (e : exn) : M A := fun _ => (Raise e, []).
Definition emit (ev : event) : M unit := fun _ => (Return tt, [ev]).

Definition bind {A B} (m : M A) (k : A -> M B) : M B :=
  fun w =>
    match m w with
    | (Return a, log) => let '(r, log') := k a w in (r, log ++ log')
    | (Raise e, log) => (Raise e, log)
    end.

(** [try: m except ChecksumMismatch as e: h (str e)]. *)
Definition try_except_mismatch {A} (m : M A) (h : string -> M A) : M A :=
  fun w =>
    match m w with
    | (Raise (ChecksumMismatch msg), log) =>
        let '(r, log') := h msg w in (r, log ++ log')
    | other => other
    end.

(** A call that reads the world, causes no event of its own and may raise. *)
Definition reading {A} (f : FS.World -> outcome A) : M A := fun w => (f w, []).

Definition lift_os {A} (path : string) (r : FS.errno + A) : M A :=
  match r with
  | inl e => raise (OSError e path)
  | inr a => ret a
  end.

Definition os_listdir (p : string) : M (list string) :=
  fun w => bind (emit (EvListdir p)) (fun _ => lift_os p (FS.listdir w p)) w.

Definition os_path_exists (p : string) : M bool :=
  fun w => bind (emit (EvExists p)) (fun _ => ret (FS.exists_ w p)) w.

Definition open_read (p : string) : M string :=
  fun w => bind (emit (EvOpenRead p)) (fun _ => lift_os p (FS.read_text w p)) w.

Definition print (line : string) : M unit := emit (EvPrint line).

(** What went to standard output, in order. *)
Definition stdout (log : list event) : list string :=
  omap (fun ev => match ev with EvPrint s => Some s | _ => None end) log.

End Py.

(** The handlers are written with stdpp's monad notations:
    [x ← m; k] and [m;; k]. *)
#[export] Instance M_ret : MRet Py.M := @Py.ret.
#[export] Instance M_bind : MBind Py.M := fun A B k m => Py.bind m k.

(* ===================================================================== *)
(** * cli.py *)
(* ===================================================================== *)

Module Cli.
Import Argparse Py.

(** Modelled from the spec: the class [ChecksumFile] is declared in
    [ansible_signatory.checksum], which is not part of the sources at hand.
    The specification makes it "a stateless coordinator parameterized by
    project root, algorithm, and differ at construction": constructing one
    stores its arguments and touches nothing. *)
Record ChecksumFile := {
  root : string;
  differ : Differ
}.

Definition DIFFER_MAP : list (string * Differ) :=
  [ ("git", GitChecksumFileExistenceDiffer);
    ("directory", DirectoryChecksumFileExistenceDiffer) ].

(** [logging.DEBUG], [logging.INFO] and [logging.WARNING]. *)
Definition DEBUG : Z := 10.
Definition INFO : Z := 20.
Definition WARNING : Z := 30.

Section Package.

(** What [cli.py] imports from the rest of the package: the version string,
    the tuple of digest names, and the two methods of [ChecksumFile] it calls.
    [parse] works on the text alone; [verify] reads the project's files.
    Either may raise. *)
Variable version : string.
Variable MODES : list string.
Variable Manifest : Type.
Variable ChecksumFile_parse : ChecksumFile -> string -> outcome Manifest.
Variable ChecksumFile_verify :
  ChecksumFile -> Manifest -> bool -> FS.World -> outcome unit.

(** ** [parse_args] *)

(** Each record is one [add_argument] call with its keyword arguments; what
    the call leaves out has argparse's default ([action] store, [default]
    None, no [choices], [required] False for an option and True for a
    positional, [dest] from the option string). *)
Definition arg_version : Argument :=
  {| option_strings := ["--version"]; dest := "version";
     action := Version ("ansible-signatory " +:+ version);
     default := None; choices := None; required := false; metavar := None;
     help := "show program's version number and exit" |}.

Definition arg_debug : Argument :=
  {| option_strings := ["--debug"]; dest := "loglevel";
     action := StoreConst (VInt DEBUG);
     default := Some VNone; choices := None; required := false; metavar := None;
     help := "Print a bunch of debug info" |}.

Definition scm_choices : list string := map fst DIFFER_MAP ++ ["auto"].

Definition scm_help : string :=
  "The source code management system (if any) storing the files. Used for skipping files that the SCM ignores.".

Definition cmd_validate_checksum : SubParser :=
  {| sp_name := "validate-checksum";
     sp_help := "Perform checksum file validation (NOT including signature signing)";
     sp_defaults := [("func", VFunc fn_validate_checksum)];
     sp_arguments :=
       [ {| option_strings := ["--checksum-file"]; dest := "checksum_file";
            action := Store; default := Some (VStr "sha256sum.txt");
            choices := None; required := false; metavar := Some "CHECKSUM_FILE";
            help := "The checksum file to use" |};
         {| option_strings := ["--scm"]; dest := "scm";
            action := Store; default := Some (VStr "auto");
            choices := Some scm_choices; required := false; metavar := Some "SCM";
            help := scm_help |};
         {| option_strings := ["--ignore-file-list-differences"];
            dest := "ignore_file_list_differences";
            action := StoreTrue; default := Some (VBool false);
            choices := None; required := false; metavar := None;
            help := "Do not fail validation even if files have been added or removed, and the current manifest is out of date. Only check those files listed in the manifest." |};
         {| option_strings := []; dest := "project_root";
            action := Store; default := Some VNone;
            choices := None; required := true; metavar := Some "PROJECT_ROOT";
            help := "The directory containing the files being validated and verified" |} ] |}.

Definition cmd_validate_gpg_signature : SubParser :=
  {| sp_name := "validate-gpg-signature";
     sp_help := "Perform GPG signature validation on the checksum manifest (NOT including checksum verification)";
     sp_defaults := [("func", VFunc fn_validate_gpg_signature)];
     sp_arguments :=
       [ {| option_strings := ["--signature-file"]; dest := "signature_file";
            action := Store; default := Some (VStr "sha256sum.txt.sig");
            choices := None; required := false; metavar := Some "SIGNATURE_FILE";
            help := "An optional detached signature file" |};
         {| option_strings := []; dest := "checksum_file";
            action := Store; default := Some (VStr "sha256sum.txt");
            choices := None; required := true; metavar := Some "CHECKSUM_FILE";
            help := "The checksum file that was signed" |} ] |}.

Definition cmd_checksum_manifest : SubParser :=
  {| sp_name := "checksum-manifest";
     sp_help := "Generate a checksum manifest file for the project";
     sp_defaults := [("func", VFunc fn_checksum_manifest)];
     sp_arguments :=
       [ {| option_strings := ["--algorithm"]; dest := "algorithm";
            action := Store; default := Some (VStr "sha256");
            choices := Some MODES; required := false; metavar := Some "ALGORITHM";
            help := "Which checksum hashing algorithm to use" |};
         {| option_strings := ["--output"]; dest := "output";
            action := Store; default := Some (VStr "-");
            choices := None; required := false; metavar := Some "OUTPUT";
            help := "An optional filename to which to write the resulting manifest" |};
         {| option_strings := ["--scm"]; dest := "scm";
            action := Store; default := Some (VStr "auto");
            choices := Some scm_choices; required := false; metavar := Some "SCM";
            help := scm_help |} ] |}.

Definition parser : ArgumentParser :=
  {| description := "Signing and validation for Ansible content";
     arguments := [arg_version; arg_debug];
     sub_required := true;
     sub_dest := "command";
     commands := [cmd_validate_checksum; cmd_validate_gpg_signature;
                  cmd_checksum_manifest] |}.

Definition parse_args (args : list string) : result (gmap string value) :=
  Argparse.parse_args parser args.

(** ** Attribute access *)

Definition get_attr (args : gmap string value) (name : string) : M value :=
  match args !! name with
  | Some v => mret v
  | None => raise (AttributeError name)
  end.

(** The handlers use these attributes as a string (a flag); [parse_args]
    stores nothing else under them. *)
Definition str_attr (args : gmap string value) (name : string) : M string :=
  v ← get_attr args name;
  match v with
  | VStr s => mret s
  | _ => raise (OtherError "TypeError")
  end.

Definition bool_attr (args : gmap string value) (name : string) : M bool :=
  v ← get_attr args name;
  match v with
  | VBool b => mret b
  | _ => raise (OtherError "TypeError")
  end.

(** ** The differ *)

Definition determine_differ_from_auto (project_root : string) : M Differ :=
  root_files ← os_listdir project_root;
  if member ".git" root_files then mret GitChecksumFileExistenceDiffer
  else mret DirectoryChecksumFileExistenceDiffer.

Fixpoint dict_get (d : list (string * Differ)) (k : string) : option Differ :=
  match d with
  | [] => None
  | (k', v) :: d' => if String.eqb k' k then Some v else dict_get d' k
  end.

Definition get_differ (scm project_root : string) : M Differ :=
  if String.eqb scm "auto" then determine_differ_from_auto project_root
  else
    match dict_get DIFFER_MAP scm with
    | Some d => mret d
    | None => raise (KeyError scm)
    end.

(** ** The handlers *)

Definition new_ChecksumFile (project_root : string) (d : Differ) : M ChecksumFile :=
  emit (EvNew project_root d);;
  mret {| root := project_root; differ := d |}.

Definition checksum_parse (c : ChecksumFile) (text : string) : M Manifest :=
  emit (EvParse text);;
  match ChecksumFile_parse c text with
  | Return m => mret m
  | Raise e => raise e
  end.

Definition checksum_verify (c : ChecksumFile) (m : Manifest) (diff : bool) : M unit :=
  emit (EvVerify (root c) (differ c) diff);;
  reading (ChecksumFile_verify c m diff).

(** A handler returns [None] (it falls off its end) or an integer. *)
Definition validate_checksum (args : gmap string value) : M (option Z) :=
  scm ← str_attr args "scm";
  project_root ← str_attr args "project_root";
  differ ← get_differ scm project_root;
  checksum ← new_ChecksumFile project_root differ;
  checksum_file ← str_attr args "checksum_file";
  found ← os_path_exists checksum_file;
  if negb found then
    print ("Checksum file does not exist: " +:+ checksum_file);;
    mret (Some 1)
  else
    checksum_file_contents ← open_read checksum_file;
    manifest ← checksum_parse checksum checksum_file_contents;
    returned ← try_except_mismatch
      (ignore ← bool_attr args "ignore_file_list_differences";
       checksum_verify checksum manifest (negb ignore);;
       mret None)
      (fun str_e =>
         print "Checksum validation FAILED!";;
         print str_e;;
         mret (Some 2));
    match returned with
    | Some code => mret (Some code)
    | None =>
        print "Checksum validation SUCCEEDED!";;
        mret None
    end.

Definition validate_gpg_signature (args : gmap string value) : M (option Z) :=
  print "hi";;
  mret None.

Definition checksum_manifest (args : gmap string value) : M (option Z) :=
  print "hi";;
  mret None.

Definition call (f : handler) (args : gmap string value) : M (option Z) :=
  match f with
  | fn_validate_checksum => validate_checksum args
  | fn_validate_gpg_signature => validate_gpg_signature args
  | fn_checksum_manifest => checksum_manifest args
  end.

(** ** [main] *)

(** [logging.basicConfig(level=loglevel, ...)] on a fresh root logger: the
    level is [loglevel], or stays at WARNING when that is [None].  The
    result is the level in force. *)
Definition setup_logging (loglevel : value) : M Z :=
  match loglevel with
  | VInt l => mret l
  | _ => mret WARNING
  end.

Definition log (in_force level : Z) (msg : string) : M unit :=
  if Z.leb in_force level then emit (EvLog level msg) else mret tt.

(** How a finished parse reaches [main]: a namespace, or [SystemExit]. *)
Definition parsed (r : result (gmap string value)) : M (gmap string value) :=
  match r with
  | Parsed args => mret args
  | Error e => emit (EvUsageError e);; raise (SystemExit 2)
  | Exit HelpText => emit EvHelp;; raise (SystemExit 0)
  | Exit (VersionText text) => print text;; raise (SystemExit 0)
  end.

Definition main (args : list string) : M (option Z) :=
  args ← parsed (parse_args args);
  loglevel ← get_attr args "loglevel";
  in_force ← setup_logging loglevel;
  log in_force DEBUG "Starting crazy calculations...";;
  func ← get_attr args "func";
  exitcode ←
    match func with
    | VFunc f => call f args
    | _ => raise (OtherError "TypeError")
    end;
  log in_force INFO "Script ends here";;
  mret exitcode.

Definition run (sys_argv : list string) : M (option Z) :=
  main (tail sys_argv).

End Package.

(** [sys.exit(x)], which a console-script entry point applies to [run()]:
    [None] is status 0, an integer is itself; an uncaught exception other
    than [SystemExit] ends the interpreter with status 1. *)
Definition exit_status (r : outcome (option Z)) : Z :=
  match r with
  | Return None => 0
  | Return (Some code) => code
  | Raise (SystemExit code) => code
  | Raise _ => 1
  end.

End Cli.

(* ===================================================================== *)
(** * Vocabulary of the statements *)
(* ===================================================================== *)

Import Argparse Py Cli.

(** The namespace carries the four attributes [validate_checksum] reads. *)
Definition vc_args (args : gmap string value) (scm project_root checksum_file : string)
    (ignore : bool) : Prop :=
  args !! "scm" = Some (VStr scm)
  /\ args !! "project_root" = Some (VStr project_root)
  /\ args !! "checksum_file" = Some (VStr checksum_file)
  /\ args !! "ignore_file_list_differences" = Some (VBool ignore).

(** Events that read the manifest or start a verification. *)
Definition touches_manifest (ev : event) : bool :=
  match ev with
  | EvOpenRead _ | EvParse _ | EvVerify _ _ _ => true
  | _ => false
  end.

Definition missing_banner (checksum_file : string) : event :=
  EvPrint ("Checksum file does not exist: " +:+ checksum_file).

(** Stand-ins for the two methods of [ChecksumFile], used in the examples:
    the manifest is its text, and [verify] ends the way it is told to. *)
Definition stub_parse (c : ChecksumFile) (text : string) : outcome string :=
  Return text.
Definition stub_verify (r : outcome unit) (c : ChecksumFile) (m : string)
    (diff : bool) (w : FS.World) : outcome unit := r.

(** A project under "/proj" with a manifest beside it, seen from "/". *)
Definition sample_world : FS.World :=
  {| FS.fs_root :=
       FS.Dir [ ("proj", FS.Dir [ ("a.txt", FS.File "hi"); ("b.txt", FS.File "bye") ]);
                ("sha256sum.txt", FS.File "manifest") ];
     FS.cwd := [] |}.

(** A project whose '.git' is a regular file (as in a git worktree). *)
Definition git_file_world : FS.World :=
  {| FS.fs_root :=
       FS.Dir [ ("proj", FS.Dir [ (".git", FS.File "gitdir: /elsewhere");
                                  ("a.txt", FS.File "hi") ]) ];
     FS.cwd := [] |}.

(** A project with other markers, and a '.git' directory one level down. *)
Definition nested_git_world : FS.World :=
  {| FS.fs_root :=
       FS.Dir [ ("proj", FS.Dir [ ("vendor", FS.Dir [ (".git", FS.Dir []) ]);
                                  (".svn", FS.Dir []); (".hg", FS.Dir []) ]) ];
     FS.cwd := [] |}.

(** A manifest inside the project, and none in the working directory. *)
Definition manifest_inside_world : FS.World :=
  {| FS.fs_root :=
       FS.Dir [ ("proj", FS.Dir [ ("a.txt", FS.File "hi");
                                  ("sha256sum.txt", FS.File "manifest") ]) ];
     FS.cwd := [] |}.

Definition sample_args (scm project_root checksum_file : string) : gmap string value :=
  {[ "scm" := VStr scm; "project_root" := VStr project_root;
     "checksum_file" := VStr checksum_file;
     "ignore_file_list_differences" := VBool false ]}.

(** What [take_action a] may store under [dest a]. *)
Definition written (a : Argument) (val : value) : Prop :=
  match action a with
  | Store => exists s, val = VStr s /\ check_value a s = None
  | StoreTrue => val = VBool true
  | StoreConst c => val = c
  | Version _ | Help => False
  end.

(** A classified string whose action, if it names one, satisfies [Q]. *)
Definition tok_ok (Q : Argument -> Prop) (t : string * tclass) : Prop :=
  match snd t with
  | TO a _ _ => Q a
  | _ => True
  end.

(** The options of a table that start with two dashes. *)
Definition long_options (tbl : list (string * Argument)) : list (string * Argument) :=
  filter (fun x => String.prefix "--" (fst x)) tbl.

(** Every option of the table that stores under [d] starts with [p]. *)
Definition dest_behind (tbl : list (string * Argument)) (d p : string) : bool :=
  forallb (fun x => negb (String.eqb (dest (snd x)) d) || String.prefix p (fst x)) tbl.

(** No argument string starts with [p] (so none can stand for an option
    whose name starts with [p]). *)
Definition none_starts_with (p : string) (argv : list string) : Prop :=
  Forall (fun s => String.prefix p s = false) argv.

(** The namespace of a parse that ended with one (and the empty one
    otherwise), for statements about concrete command lines. *)
Definition namespace_of (r : result (gmap string value)) : gmap string value :=
  match r with
  | Parsed ns0 => ns0
  | _ => ∅
  end.

Definition is_parsed (r : result (gmap string value)) : bool :=
  match r with
  | Parsed _ => true
  | _ => false
  end.

(** The handler [set_defaults(func=...)] attaches to each sub-command. *)
Definition command_handler (name : string) : option handler :=
  if String.eqb name "validate-checksum" then Some fn_validate_checksum
  else if String.eqb name "validate-gpg-signature" then Some fn_validate_gpg_signature
  else if String.eqb name "checksum-manifest" then Some fn_checksum_manifest
  else None.

(** The records the logger emits around the handler when the level in force
    is DEBUG (after [--debug]); without it the level is WARNING and neither
    is emitted. *)
Definition log_before (debug : bool) : list event :=
  if debug then [EvLog DEBUG "Starting crazy calculations..."] else [].
Definition log_after (debug : bool) : list event :=
  if debug then [EvLog INFO "Script ends here"] else [].

(** Modelled from the spec: [ChecksumFile.MODES] is declared in
    [ansible_signatory.checksum], which is not part of the sources at hand.
    The specification names "sha256 as default, plus sha1/sha512/md5 as
    optional legacy modes".  The theorems hold for every value of [MODES];
    this one serves the examples. *)
Definition spec_MODES : list string := ["sha256"; "sha1"; "sha512"; "md5"].

(** Splits a membership in an explicit log into its cases. *)
Ltac in_log H :=
  repeat first
    [ apply elem_of_app in H as [H|H]
    | apply elem_of_cons in H as [H|H]
    | apply elem_of_nil in H; destruct H ].

(** Unfolds the monad so that a handler applied to a world computes. *)
Ltac run_py :=
  cbv beta delta
    [mbind mret M_bind M_ret Py.bind Py.ret Py.raise Py.emit Py.print Py.reading
     Py.lift_os Py.os_listdir Py.os_path_exists Py.open_read
     Py.try_except_mismatch
     Cli.get_attr Cli.str_attr Cli.bool_attr Cli.new_ChecksumFile
     Cli.checksum_parse Cli.checksum_verify] in *.

(* ===================================================================== *)
(** * Running the handlers *)
(* ===================================================================== *)


Lemma member_spec (s : string) (l : list string) :
  member s l = bool_decide (s ∈ l).
Proof.
  induction l as [|x l IH].
  - symmetry. apply bool_decide_eq_false_2, not_elem_of_nil.
  - cbn [member existsb]. fold (member s l).
    destruct (String.eqb_spec s x) as [->|Hne]; cbn [orb].
    + symmetry. apply bool_decide_eq_true_2. left.
    + rewrite IH. apply bool_decide_ext. rewrite elem_of_cons. tauto.
Qed.

Lemma lookup_entry_names (name : string) (es : list (string * FS.node)) :
  FS.lookup_entry name es = None <-> name ∉ map fst es.
Proof.
  induction es as [|[n x] es IH]; simpl.
  - split; [intros _; apply not_elem_of_nil | done].
  - rewrite not_elem_of_cons. destruct (String.eqb_spec n name) as [->|Hne].
    + split; [done | intros [? _]; done].
    + rewrite IH. split; [intros H; split; [congruence | exact H] | tauto].
Qed.

(** [determine_differ_from_auto] on a root that is a directory. *)
Lemma auto_on_directory (w : FS.World) (project_root : string)
    (entries : list (string * FS.node)) :
  FS.resolve w project_root = inr (FS.Dir entries) ->
  determine_differ_from_auto project_root w =
    (Return (if decide (".git" ∈ map fst entries)
             then GitChecksumFileExistenceDiffer
             else DirectoryChecksumFileExistenceDiffer),
     [EvListdir project_root]).
Proof.
  intros Hres. unfold determine_differ_from_auto. run_py.
  unfold FS.listdir. rewrite Hres. simpl. rewrite member_spec.
  destruct (decide (".git" ∈ map fst entries)) as [Hin|Hnin].
  - rewrite bool_decide_eq_true_2 by done. reflexivity.
  - rewrite bool_decide_eq_false_2 by done. reflexivity.
Qed.

(** ... and on one that is missing or is no directory. *)
Lemma auto_on_bad_root (w : FS.World) (project_root : string) (e : FS.errno) :
  FS.listdir w project_root = inl e ->
  determine_differ_from_auto project_root w =
    (Raise (OSError e project_root), [EvListdir project_root]).
Proof.
  intros Hls. unfold determine_differ_from_auto. run_py. rewrite Hls. reflexivity.
Qed.


(* --------------------------------------------------------------------- *)
(** ** Choosing the differ *)
(* --------------------------------------------------------------------- *)

(** C1.  With the choice 'auto' the only thing looked at is the listing of
    the project root ([os.listdir], one event): an entry named '.git' among
    the immediate children gives [GitChecksumFileExistenceDiffer], its absence
    [DirectoryChecksumFileExistenceDiffer] (and a root that cannot be listed
    raises).  With the choice 'git' or 'directory' the class comes from
    [DIFFER_MAP] and nothing is looked at: no event, in every world. *)
Theorem differ_selection (w : FS.World) (project_root : string) :
  get_differ "auto" project_root w =
    (match FS.resolve w project_root with
     | inr (FS.Dir entries) =>
         Return (if decide (".git" ∈ map fst entries)
                 then GitChecksumFileExistenceDiffer
                 else DirectoryChecksumFileExistenceDiffer)
     | inr (FS.File _) => Raise (OSError FS.ENOTDIR project_root)
     | inl e => Raise (OSError e project_root)
     end, [EvListdir project_root])
  /\ get_differ "git" project_root w = (Return GitChecksumFileExistenceDiffer, [])
  /\ get_differ "directory" project_root w =
       (Return DirectoryChecksumFileExistenceDiffer, [])
  /\ (forall scm d, scm <> "auto" -> dict_get DIFFER_MAP scm = Some d ->
        forall w', get_differ scm project_root w' = (Return d, [])).
Proof.
  repeat split.
  - change (get_differ "auto" project_root w)
      with (determine_differ_from_auto project_root w).
    destruct (FS.resolve w project_root) as [e|[c|es]] eqn:Hres.
    + apply auto_on_bad_root. unfold FS.listdir. by rewrite Hres.
    + apply auto_on_bad_root. unfold FS.listdir. by rewrite Hres.
    + by apply auto_on_directory.
  - intros scm d Hne Hget w'. unfold get_differ.
    destruct (String.eqb_spec scm "auto") as [->|_]; [done|].
    rewrite Hget. reflexivity.
Qed.

(** C8.  Only the name counts, and only among the immediate children: an
    entry '.git' selects the git differ whatever it is (a regular file too);
    without such an entry the directory differ is selected, whatever else the
    root holds (other marker names, a '.git' further down). *)
Theorem auto_detection_by_name_only (w : FS.World) (project_root : string)
    (entries : list (string * FS.node)) :
  FS.resolve w project_root = inr (FS.Dir entries) ->
  (forall n, FS.lookup_entry ".git" entries = Some n ->
     fst (determine_differ_from_auto project_root w)
       = Return GitChecksumFileExistenceDiffer)
  /\ (forall content, In (".git", FS.File content) entries ->
     fst (determine_differ_from_auto project_root w)
       = Return GitChecksumFileExistenceDiffer)
  /\ (FS.lookup_entry ".git" entries = None ->
     fst (determine_differ_from_auto project_root w)
       = Return DirectoryChecksumFileExistenceDiffer)
  /\ (forall name below others,
     name <> ".git" -> FS.lookup_entry ".git" others = None ->
     entries = (name, FS.Dir ((".git", FS.Dir below) :: nil)) :: others ->
     fst (determine_differ_from_auto project_root w)
       = Return DirectoryChecksumFileExistenceDiffer).
Proof.
  intros Hres. rewrite (auto_on_directory _ _ _ Hres). simpl.
  assert (Hno : FS.lookup_entry ".git" entries = None ->
                (if decide (".git" ∈ map fst entries)
                 then GitChecksumFileExistenceDiffer
                 else DirectoryChecksumFileExistenceDiffer)
                = DirectoryChecksumFileExistenceDiffer).
  { intros Hn. apply lookup_entry_names in Hn. by rewrite decide_False. }
  repeat split.
  - intros n Hn. rewrite decide_True; [done|].
    destruct (decide (".git" ∈ map fst entries)) as [|Hnin]; [done|].
    apply lookup_entry_names in Hnin. congruence.
  - intros content Hin. rewrite decide_True; [done|].
    apply list_elem_of_In. apply (in_map fst) in Hin. exact Hin.
  - intros Hn. f_equal. by apply Hno.
  - intros name below others Hname Hothers ->. f_equal. apply Hno. simpl.
    destruct (String.eqb_spec name ".git"); [done|]. exact Hothers.
Qed.

(* --------------------------------------------------------------------- *)
(** ** [validate_checksum], step by step *)
(* --------------------------------------------------------------------- *)

Lemma sample_args_ok (scm project_root checksum_file : string) :
  vc_args (sample_args scm project_root checksum_file) scm project_root checksum_file false.
Proof. unfold vc_args, sample_args. repeat split; by simplify_map_eq. Qed.

Lemma get_differ_log (scm project_root : string) (w : FS.World) :
  snd (get_differ scm project_root w) = []
  \/ snd (get_differ scm project_root w) = [EvListdir project_root].
Proof.
  unfold get_differ. destruct (String.eqb scm "auto").
  - right. unfold determine_differ_from_auto. run_py.
    destruct (FS.listdir w project_root) as [e|names]; simpl; [done|].
    by destruct (member ".git" names).
  - left. by destruct (dict_get DIFFER_MAP scm).
Qed.



Section Handlers.

Variable Manifest : Type.
Variable ChecksumFile_parse : ChecksumFile -> string -> outcome Manifest.
Variable ChecksumFile_verify :
  ChecksumFile -> Manifest -> bool -> FS.World -> outcome unit.

Abbreviation validate := (validate_checksum Manifest ChecksumFile_parse ChecksumFile_verify).

Variables (args : gmap string value) (scm project_root checksum_file : string)
          (ignore : bool) (w : FS.World).
Hypothesis Hargs : vc_args args scm project_root checksum_file ignore.

(** The differ is chosen first; when that raises, nothing else happens. *)
Lemma validate_differ_raises (e : exn) (l : list event) :
  get_differ scm project_root w = (Raise e, l) ->
  validate args w = (Raise e, l).
Proof using Hargs.
  destruct Hargs as (Hscm & Hroot & Hcf & Hign). intros Hd.
  unfold validate_checksum. run_py. rewrite Hscm, Hroot. simpl. rewrite Hd.
  reflexivity.
Qed.

(** A manifest that does not exist: message, exit code 1, and that is all. *)
Lemma validate_missing (d : Differ) (l : list event) :
  get_differ scm project_root w = (Return d, l) ->
  FS.exists_ w checksum_file = false ->
  validate args w =
    (Return (Some 1),
     l ++ [EvNew project_root d; EvExists checksum_file; missing_banner checksum_file]).
Proof using Hargs.
  destruct Hargs as (Hscm & Hroot & Hcf & Hign). intros Hd Hex.
  unfold validate_checksum. run_py. rewrite Hscm, Hroot. simpl. rewrite Hd, Hcf.
  simpl. rewrite Hex. reflexivity.
Qed.

(** A manifest that exists but cannot be read as a file. *)
Lemma validate_unreadable (d : Differ) (l : list event) (e : FS.errno) :
  get_differ scm project_root w = (Return d, l) ->
  FS.exists_ w checksum_file = true ->
  FS.read_text w checksum_file = inl e ->
  validate args w =
    (Raise (OSError e checksum_file),
     l ++ [EvNew project_root d; EvExists checksum_file; EvOpenRead checksum_file]).
Proof using Hargs.
  destruct Hargs as (Hscm & Hroot & Hcf & Hign). intros Hd Hex Hrd.
  unfold validate_checksum. run_py. rewrite Hscm, Hroot. simpl. rewrite Hd, Hcf.
  simpl. rewrite Hex. simpl. rewrite Hrd. simpl.
  reflexivity.
Qed.

(** A manifest that [parse] refuses. *)
Lemma validate_unparsable (d : Differ) (l : list event) (text : string) (e : exn) :
  get_differ scm project_root w = (Return d, l) ->
  FS.read_text w checksum_file = inr text ->
  ChecksumFile_parse {| root := project_root; differ := d |} text = Raise e ->
  validate args w =
    (Raise e,
     l ++ [EvNew project_root d; EvExists checksum_file; EvOpenRead checksum_file;
           EvParse text]).
Proof using Hargs.
  destruct Hargs as (Hscm & Hroot & Hcf & Hign). intros Hd Hrd Hp.
  assert (Hex : FS.exists_ w checksum_file = true).
  { unfold FS.exists_, FS.read_text in *. by destruct (FS.resolve w checksum_file). }
  unfold validate_checksum. run_py. rewrite Hscm, Hroot. simpl. rewrite Hd, Hcf.
  simpl. rewrite Hex. simpl. rewrite Hrd. simpl. rewrite Hp.
  simpl. reflexivity.
Qed.

(** The manifest was read and parsed: [verify] is called, once, with
    [diff = not args.ignore_file_list_differences], and its end decides. *)
Lemma validate_verifies (d : Differ) (l : list event) (text : string) (m : Manifest) :
  get_differ scm project_root w = (Return d, l) ->
  FS.read_text w checksum_file = inr text ->
  ChecksumFile_parse {| root := project_root; differ := d |} text = Return m ->
  let called :=
    l ++ [EvNew project_root d; EvExists checksum_file; EvOpenRead checksum_file;
          EvParse text; EvVerify project_root d (negb ignore)] in
  validate args w =
    match ChecksumFile_verify {| root := project_root; differ := d |} m (negb ignore) w with
    | Return _ => (Return None, called ++ [EvPrint "Checksum validation SUCCEEDED!"])
    | Raise (ChecksumMismatch str_e) =>
        (Return (Some 2),
         called ++ [EvPrint "Checksum validation FAILED!"; EvPrint str_e])
    | Raise e => (Raise e, called)
    end.
Proof using Hargs.
  destruct Hargs as (Hscm & Hroot & Hcf & Hign). intros Hd Hrd Hp called.
  assert (Hex : FS.exists_ w checksum_file = true).
  { unfold FS.exists_, FS.read_text in *. by destruct (FS.resolve w checksum_file). }
  unfold validate_checksum. run_py. rewrite Hscm, Hroot. simpl. rewrite Hd, Hcf.
  simpl. rewrite Hex. simpl. rewrite Hrd. simpl. rewrite Hp.
  simpl. rewrite Hign. simpl. subst called.
  destruct (ChecksumFile_verify _ m (negb ignore) w) as [[]|e]; simpl.
  - rewrite <- !app_assoc. reflexivity.
  - destruct e; simpl; rewrite <- ?app_assoc; reflexivity.
Qed.

End Handlers.

(* ===================================================================== *)
(** * Invariants of the parser's loop *)
(* ===================================================================== *)

Lemma take_action_parsed (a : Argument) (v : option string) (st st' : state) :
  take_action a v st = Parsed st' ->
  exists val, written a val /\ st' = set_attr (dest a) val st.
Proof.
  unfold take_action, written. destruct (action a) as [| |c|text|]; try done.
  - destruct v as [s|]; [|done].
    destruct (check_value a s) eqn:Hc; [done|]. intros [= <-]. eauto.
  - intros [= <-]. eauto.
  - intros [= <-]. eauto.
Qed.

Section ConsumeInv.

Variable tbl : list (string * Argument).
Variable sub : option (list string -> state -> result state).
Variable Q : Argument -> Prop.
Variable I : state -> Prop.

Hypothesis Hshort :
  forall c a, lookup_option tbl (String "-" (String c EmptyString)) = Some a -> Q a.
Hypothesis Hextra : forall s st, I st -> I (add_extra s st).
Hypothesis Hrun : forall n b st, I st -> I (set_run n b st).
Hypothesis Hpend :
  forall st p ps, pending st = p :: ps -> I st -> Q p /\ I (set_pending ps st).
Hypothesis Hattr :
  forall a val st, Q a -> written a val -> I st -> I (set_attr (dest a) val st).

Lemma take_action_inv (a : Argument) (v : option string) (st st' : state) :
  Q a -> I st -> take_action a v st = Parsed st' -> I st'.
Proof using Hattr.
  intros Ha Hst Htake. apply take_action_parsed in Htake as (val & Hw & ->).
  by apply Hattr.
Qed.

Lemma take_all_inv (pre : list Argument) (st st' : state) :
  Forall Q pre -> I st -> take_all pre st = Parsed st' -> I st'.
Proof using Hattr.
  revert st. induction pre as [|a pre IH]; intros st Hpre Hst; simpl.
  - by intros [= <-].
  - apply Forall_cons in Hpre as [Ha Hpre].
    destruct (take_action a None st) as [st1| |] eqn:Htake; try done.
    apply IH; [done|]. by eapply take_action_inv.
Qed.

Lemma resolve_explicit_inv (e : string) (a : Argument) (opt : string)
    (pre pre' : list Argument) (r : resolved) :
  Q a -> Forall Q pre ->
  resolve_explicit tbl a opt e pre = inr (pre', r) ->
  Forall Q pre' /\ match r with RValue a' _ => Q a' | RNext a' => Q a' end.
Proof using Hshort.
  revert a opt pre. induction e as [|c e IH]; intros a opt pre Ha Hpre; simpl.
  - destruct (takes_argument a); [by intros [= <- <-]|].
    by destruct (double_dash opt).
  - destruct (takes_argument a); [by intros [= <- <-]|].
    destruct (double_dash opt); [done|].
    destruct (lookup_option tbl _) as [a'|] eqn:Hl; [|done].
    assert (Ha' : Q a') by (by eapply Hshort).
    assert (Hpre' : Forall Q (pre ++ [a])).
    { apply Forall_app. split; [done|]. by apply Forall_singleton. }
    destruct e as [|c' e'].
    + by intros [= <- <-].
    + by apply IH.
Qed.

Lemma positional_inv (s : string) (st st' : state) :
  I st -> positional s st = Parsed st' -> I st'.
Proof using Hextra Hrun Hpend Hattr.
  intros Hst. unfold positional. destruct (pending st) as [|p ps] eqn:Hp.
  - intros [= <-]. by apply Hrun, Hextra.
  - destruct (Hpend _ _ _ Hp Hst) as [Hq Hst'].
    apply take_action_inv; [done|]. by apply Hrun.
Qed.

Lemma dashes_inv (s : string) (more : bool) (st : state) :
  I st -> I (dashes s more st).
Proof using Hextra.
  intros Hst. unfold dashes. destruct (spilled st); [by apply Hextra|].
  destruct (negb _); [done|].
  destruct (pending st); [by apply Hextra|]. destruct more; [done|by apply Hextra].
Qed.

(** The loop keeps [I]; when the parser has sub-commands and one is entered,
    [I] holds of the state handed to it, and what it receives is a tail of
    the argument list. *)
Lemma consume_inv (cs : list (string * tclass)) (st st' : state) :
  Forall (tok_ok Q) cs -> I st ->
  consume tbl sub cs st = Parsed st' ->
  I st' \/
  exists f vals st1,
    sub = Some f /\ I st1 /\ vals `suffix_of` map fst cs /\ vals <> []
    /\ f vals st1 = Parsed st'.
Proof using Hshort Hextra Hrun Hpend Hattr.
  remember (length cs) as n eqn:Hn. revert cs st Hn.
  induction n as [n IH] using lt_wf_ind. intros cs st Hn Hcs Hst.
  assert (Hlater : forall rest st2,
             (length rest < length cs)%nat -> map fst rest `suffix_of` map fst cs ->
             Forall (tok_ok Q) rest -> I st2 ->
             consume tbl sub rest st2 = Parsed st' ->
             I st' \/
             exists f vals st1,
               sub = Some f /\ I st1 /\ vals `suffix_of` map fst cs /\ vals <> []
               /\ f vals st1 = Parsed st').
  { intros rest st2 Hlen Hsuf Hrest Hst2 Hc.
    destruct (IH (length rest) ltac:(lia) rest st2 eq_refl Hrest Hst2 Hc)
      as [?|(f & vals & st1 & ? & ? & ? & ? & ?)]; [by left|].
    right. exists f, vals, st1. repeat split; try done. by etrans. }
  destruct cs as [|[s c] rest]; simpl.
  { intros [= <-]. by left. }
  apply Forall_cons in Hcs as [Hc Hrest].
  assert (Hs1 : map fst rest `suffix_of` s :: map fst rest) by apply suffix_cons_r, reflexivity.
  destruct c as [|a opt explicit| |].
  - (* 'A' *)
    destruct sub as [f|] eqn:Hsub.
    + intros Hf. right. exists f, (s :: map fst rest), st. by repeat split.
    + destruct (positional s st) as [st1| |] eqn:Hp; try done.
      apply Hlater; simpl; [lia|done|done|]. by eapply positional_inv.
  - (* an option *)
    unfold tok_ok in Hc. simpl in Hc.
    destruct (match explicit with
              | Some e => resolve_explicit tbl a opt e []
              | None => inr ([], RNext a)
              end) as [err|[pre r]] eqn:Hres; [done|].
    assert (Hq : Forall Q pre /\ match r with RValue a' _ => Q a' | RNext a' => Q a' end).
    { destruct explicit as [e|].
      - by eapply resolve_explicit_inv.
      - injection Hres as <- <-. by split. }
    destruct Hq as [Hpre Hr].
    destruct r as [a' v|a'].
    + destruct (take_all pre (set_run 0 false st)) as [st1| |] eqn:H1; try done.
      destruct (take_action a' (Some v) st1) as [st2| |] eqn:H2; try done.
      apply Hlater; simpl; [lia|done|done|].
      eapply take_action_inv; [done| |done].
      eapply take_all_inv; [done| |done]. by apply Hrun.
    + destruct (takes_argument a').
      * destruct rest as [|[v [| | |]] rest']; try done.
        destruct (take_all pre (set_run 0 false st)) as [st1| |] eqn:H1; try done.
        destruct (take_action a' (Some v) st1) as [st2| |] eqn:H2; try done.
        apply Forall_cons in Hrest as [_ Hrest'].
        apply Hlater; simpl; [lia| |done|].
        { do 2 apply suffix_cons_r. reflexivity. }
        eapply take_action_inv; [done| |done].
        eapply take_all_inv; [done| |done]. by apply Hrun.
      * destruct (take_all pre (set_run 0 false st)) as [st1| |] eqn:H1; try done.
        destruct (take_action a' None st1) as [st2| |] eqn:H2; try done.
        apply Hlater; simpl; [lia|done|done|].
        eapply take_action_inv; [done| |done].
        eapply take_all_inv; [done| |done]. by apply Hrun.
  - (* an option the parser does not know *)
    apply Hlater; simpl; [lia|done|done|]. by apply Hrun, Hextra.
  - (* "--" *)
    destruct sub as [f|] eqn:Hsub; [destruct rest as [|x rest'] eqn:Hrest'|].
    + apply Hlater; simpl; [lia|done|done|]. by apply dashes_inv.
    + intros Hf. right. exists f, (s :: map fst (x :: rest')), st. by repeat split.
    + apply Hlater; simpl; [lia|done|done|]. by apply dashes_inv.
Qed.

(** Without sub-commands the loop comes by every string: when the list is
    read to its end, a string that is no ['A'] was reached in some state, and
    [I] held there. *)
Lemma consume_reaches (cs1 : list (string * tclass)) (t : string * tclass)
    (cs2 : list (string * tclass)) (st st' : state) :
  sub = None -> snd t <> TA ->
  Forall (tok_ok Q) cs1 -> I st ->
  consume tbl sub (cs1 ++ t :: cs2) st = Parsed st' ->
  exists st1, I st1 /\ consume tbl sub (t :: cs2) st1 = Parsed st'.
Proof using Hshort Hextra Hrun Hpend Hattr.
  intros Hsub Ht. rewrite Hsub.
  remember (length cs1) as n eqn:Hn. revert cs1 st Hn.
  induction n as [n IH] using lt_wf_ind. intros cs1 st Hn Hcs Hst.
  destruct cs1 as [|[s c] rest].
  { intros Hc. by exists st. }
  apply Forall_cons in Hcs as [Hc Hrest]. simpl in Hn.
  assert (Hlater : forall rest' st2,
             (length rest' < n)%nat -> Forall (tok_ok Q) rest' -> I st2 ->
             consume tbl None (rest' ++ t :: cs2) st2 = Parsed st' ->
             exists st1, I st1 /\ consume tbl None (t :: cs2) st1 = Parsed st').
  { intros rest' st2 Hlen. by apply (IH (length rest')). }
  rewrite <- app_comm_cons.
  destruct c as [|a opt explicit| |]; cbn [consume].
  - destruct (positional s st) as [st1| |] eqn:Hp; try done.
    apply Hlater; [lia|done|]. by eapply positional_inv.
  - unfold tok_ok in Hc. simpl in Hc.
    destruct (match explicit with
              | Some e => resolve_explicit tbl a opt e []
              | None => inr ([], RNext a)
              end) as [err|[pre r]] eqn:Hres; [done|].
    assert (Hq : Forall Q pre /\ match r with RValue a' _ => Q a' | RNext a' => Q a' end).
    { destruct explicit as [e|].
      - by eapply resolve_explicit_inv.
      - injection Hres as <- <-. by split. }
    destruct Hq as [Hpre Hr].
    destruct r as [a' v|a'].
    + destruct (take_all pre (set_run 0 false st)) as [st1| |] eqn:H1; try done.
      destruct (take_action a' (Some v) st1) as [st2| |] eqn:H2; try done.
      apply Hlater; [lia|done|].
      eapply take_action_inv; [done| |done].
      eapply take_all_inv; [done| |done]. by apply Hrun.
    + destruct (takes_argument a').
      * destruct rest as [|[v c'] rest'].
        { destruct t as [s' c'']. simpl in Ht. simpl. by destruct c''. }
        rewrite <- app_comm_cons. destruct c'; try done.
        destruct (take_all pre (set_run 0 false st)) as [st1| |] eqn:H1; try done.
        destruct (take_action a' (Some v) st1) as [st2| |] eqn:H2; try done.
        apply Forall_cons in Hrest as [_ Hrest'].
        apply Hlater; [simpl in Hn; lia|done|].
        eapply take_action_inv; [done| |done].
        eapply take_all_inv; [done| |done]. by apply Hrun.
      * destruct (take_all pre (set_run 0 false st)) as [st1| |] eqn:H1; try done.
        destruct (take_action a' None st1) as [st2| |] eqn:H2; try done.
        apply Hlater; [lia|done|].
        eapply take_action_inv; [done| |done].
        eapply take_all_inv; [done| |done]. by apply Hrun.
  - apply Hlater; [lia|done|]. by apply Hrun, Hextra.
  - apply Hlater; [lia|done|]. by apply dashes_inv.
Qed.

End ConsumeInv.

(* ===================================================================== *)
(** * Reading argument strings *)
(* ===================================================================== *)

Lemma prefix_cons (a b : ascii) (s1 s2 : string) :
  String.prefix (String a s1) (String b s2) = true <-> a = b /\ String.prefix s1 s2 = true.
Proof.
  simpl. destruct (ascii_dec a b) as [->|Hne]; [tauto|].
  split; [done|]. intros [? _]. done.
Qed.

Lemma prefix_refl (s : string) : String.prefix s s = true.
Proof. induction s as [|a s IH]; [done|]. by apply prefix_cons. Qed.

Lemma prefix_trans (a b c : string) :
  String.prefix a b = true -> String.prefix b c = true -> String.prefix a c = true.
Proof.
  revert b c. induction a as [|x a IH]; intros b c; [by destruct c|].
  destruct b as [|y b]; [done|]. destruct c as [|z c]; [done|].
  rewrite !prefix_cons. intros [-> Hab] [-> Hbc]. eauto.
Qed.

Lemma prefix_comparable (x y o : string) :
  String.prefix x o = true -> String.prefix y o = true ->
  String.prefix x y = true \/ String.prefix y x = true.
Proof.
  revert y o. induction x as [|a x IH]; intros y o.
  - intros _ _. left. by destruct y.
  - destruct y as [|b y]; [by right|].
    destruct o as [|c o]; [intros H; simpl in H; done|].
    rewrite !prefix_cons. intros [-> Hx] [-> Hy].
    destruct (IH _ _ Hx Hy); [left|right]; done.
Qed.

Lemma prefix_length (a b : string) :
  String.prefix a b = true -> (String.length a <= String.length b)%nat.
Proof.
  revert b. induction a as [|x a IH]; intros b; simpl; [lia|].
  destruct b as [|y b]; [done|]. rewrite prefix_cons. intros [_ H].
  apply IH in H. simpl. lia.
Qed.

Lemma split_first_prefix (c : ascii) (s o e : string) :
  split_first c s = Some (o, e) -> String.prefix o s = true.
Proof.
  revert o. induction s as [|a s IH]; intros o; simpl; [done|].
  destruct (Ascii.eqb a c); [by intros [= <- <-]|].
  destruct (split_first c s) as [[o' e']|]; [|done].
  intros [= <- <-]. apply prefix_cons. eauto.
Qed.

Lemma double_dash_prefix (s : string) :
  double_dash s = true <-> String.prefix "--" s = true.
Proof.
  destruct s as [|a [|b s]].
  - split; done.
  - change (double_dash (String a "")) with false. split; [done|].
    rewrite prefix_cons. intros [_ H]. discriminate H.
  - unfold double_dash, is_dash.
    rewrite andb_true_iff, !Ascii.eqb_eq, !prefix_cons.
    split; [intros [-> ->]; repeat split; by destruct s | intros (<- & <- & _); done].
Qed.

Lemma split_first_double_dash (s o e : string) :
  double_dash s = true -> split_first "=" s = Some (o, e) ->
  String.prefix "--" o = true.
Proof.
  unfold double_dash, is_dash. destruct s as [|a [|b s]]; try done.
  destruct (Ascii.eqb_spec a "-") as [->|]; [|done].
  destruct (Ascii.eqb_spec b "-") as [->|]; [|done]. intros _. simpl.
  destruct (split_first "=" s) as [[o' e']|]; [|done].
  intros [= <- <-]. by apply double_dash_prefix.
Qed.

Lemma lookup_option_In (tbl : list (string * Argument)) (s : string) (a : Argument) :
  lookup_option tbl s = Some a -> In (s, a) tbl.
Proof.
  induction tbl as [|[o b] tbl IH]; simpl; [done|].
  destruct (String.eqb_spec o s) as [->|_]; [intros [= ->]; by left|].
  intros H. right. by apply IH.
Qed.

Lemma omap_singleton_In {A B} (f : A -> option B) (l : list A) (y : B) :
  omap f l = [y] -> exists x, In x l /\ f x = Some y.
Proof.
  induction l as [|x l IH]; simpl; [done|].
  destruct (f x) as [y'|] eqn:Hf.
  - intros [= -> _]. exists x. split; [by left|done].
  - intros H. destruct (IH H) as (x' & ? & ?). exists x'. split; [by right|done].
Qed.

Lemma omap_length_filter {A B} (f : A -> option B) (g : A -> bool) (l : list A) :
  (forall x, g x = true -> is_Some (f x)) ->
  (length (filter g l) <= length (omap f l))%nat.
Proof.
  intros Hg. induction l as [|x l IH]; simpl; [done|].
  rewrite filter_cons. destruct (decide (g x)) as [Hx|Hx].
  - apply Is_true_true in Hx. destruct (Hg _ Hx) as [y ->]. simpl.
    apply le_n_S. exact IH.
  - destruct (f x); simpl; [apply Nat.le_le_succ_r|]; exact IH.
Qed.

(** An option the parser recognises is one of its table. *)
Lemma parse_optional_In (tbl : list (string * Argument)) (s : string)
    (a : Argument) (opt : string) (e : option string) :
  parse_optional tbl s = inr (TO a opt e) -> In (opt, a) tbl.
Proof.
  unfold parse_optional. destruct s as [|c rest]; [done|].
  destruct (negb (is_dash c)); [done|].
  destruct (lookup_option tbl (String c rest)) as [a0|] eqn:Hexact.
  { intros [= <- <- <-]. by apply lookup_option_In. }
  destruct (String.eqb rest ""); [done|].
  destruct (split_first "=" (String c rest)) as [[o e0]|] eqn:Hsplit.
  - destruct (lookup_option tbl o) as [a1|] eqn:Hl.
    { intros [= <- <- <-]. by apply lookup_option_In. }
    destruct (get_option_tuples tbl (String c rest)) as [|[[a2 o2] e2] [|]] eqn:Hg;
      [by repeat case_match| |done].
    intros [= <- <- <-]. unfold get_option_tuples in Hg. rewrite Hsplit in Hg.
    destruct (double_dash _);
      apply omap_singleton_In in Hg as ([o' a'] & Hin & Hf); repeat case_match;
      by simplify_eq.
  - destruct (get_option_tuples tbl (String c rest)) as [|[[a2 o2] e2] [|]] eqn:Hg;
      [by repeat case_match| |done].
    intros [= <- <- <-]. unfold get_option_tuples in Hg. rewrite Hsplit in Hg.
    destruct (double_dash _);
      apply omap_singleton_In in Hg as ([o' a'] & Hin & Hf); repeat case_match;
      by simplify_eq.
Qed.

Lemma prefix_of_three (c : ascii) (x : string) :
  String.prefix "--" x = true ->
  String.prefix x (String "-" (String "-" (String c EmptyString))) = true ->
  x = "--" \/ x = String "-" (String "-" (String c EmptyString)).
Proof.
  intros H1 H2.
  destruct x as [|a x]; [discriminate H1|].
  apply prefix_cons in H1 as [<- H1]. apply prefix_cons in H2 as [_ H2].
  destruct x as [|b x]; [discriminate H1|].
  apply prefix_cons in H1 as [<- _]. apply prefix_cons in H2 as [_ H2].
  destruct x as [|d x]; [by left|].
  apply prefix_cons in H2 as [-> H2].
  destruct x; [by right|discriminate H2].
Qed.

(** An argument string that stands for the option [opt] starts like [opt]
    does, as far as the first letter after the two dashes: an abbreviation
    cannot be shorter, since "--" alone is a prefix of two options. *)
Lemma parse_optional_starts (tbl : list (string * Argument)) (c : ascii)
    (s : string) (a : Argument) (opt : string) (e : option string) :
  (2 <= length (long_options tbl))%nat ->
  parse_optional tbl s = inr (TO a opt e) ->
  String.prefix (String "-" (String "-" (String c EmptyString))) opt = true ->
  String.prefix (String "-" (String "-" (String c EmptyString))) s = true.
Proof.
  set (p := String "-" (String "-" (String c EmptyString))).
  intros Hlong Hparse Hopt. unfold parse_optional in Hparse.
  destruct s as [|c0 rest]; [done|].
  destruct (negb (is_dash c0)); [done|].
  destruct (lookup_option tbl (String c0 rest)) as [a0|] eqn:Hexact.
  { by injection Hparse as <- <- <-. }
  destruct (String.eqb_spec rest "") as [|Hrest]; [done|].
  set (s := String c0 rest) in *.
  (* the abbreviation case, shared by the two ways to reach it *)
  assert (Habbrev : forall a2 o2 e2,
             get_option_tuples tbl s = [(a2, o2, e2)] ->
             String.prefix p o2 = true -> String.prefix p s = true).
  { intros a2 o2 e2 Hg Hp. unfold get_option_tuples in Hg.
    destruct (double_dash s) eqn:Hdd.
    - set (pfx := match split_first "=" s with
                  | Some (q, _) => q
                  | None => s
                  end).
      assert (Hpfx_s : String.prefix pfx s = true).
      { subst pfx. destruct (split_first "=" s) as [[q e0]|] eqn:Hsp.
        - by eapply split_first_prefix.
        - apply prefix_refl. }
      assert (Hpfx_dd : String.prefix "--" pfx = true).
      { subst pfx. destruct (split_first "=" s) as [[q e0]|] eqn:Hsp.
        - by eapply split_first_double_dash.
        - by apply double_dash_prefix. }
      assert (Hg' : exists ex,
                 omap (fun '(o, a) =>
                         if String.prefix pfx o then Some (a, o, ex) else None) tbl
                 = [(a2, o2, e2)]).
      { subst pfx. destruct (split_first "=" s) as [[q e0]|]; eauto. }
      destruct Hg' as [ex Hg'].
      destruct (omap_singleton_In _ _ _ Hg') as ([o' a'] & Hin & Hf).
      destruct (String.prefix pfx o') eqn:Hpo; [|done]. injection Hf as -> -> ->.
      destruct (prefix_comparable _ _ _ Hp Hpo) as [Hpp|Hpp].
      + by eapply prefix_trans.
      + destruct (prefix_of_three _ _ Hpfx_dd Hpp) as [Heq|Heq].
        * exfalso.
          assert (Hlen : (length (long_options tbl) <= 1)%nat).
          { change 1%nat with (length [(a2, o2, e2)]). rewrite <- Hg'.
            apply omap_length_filter. intros [o a1] Ho. simpl in Ho.
            rewrite Heq. rewrite Ho. eauto. }
          lia.
        * fold p in Heq. by rewrite <- Heq.
    - destruct (omap_singleton_In _ _ _ Hg) as ([o' a'] & Hin & Hf).
      destruct (String.eqb_spec o' (substring 0 2 s)) as [Hsub|_].
      + injection Hf as -> <- <-. exfalso.
        apply prefix_length in Hp. rewrite Hsub in Hp. subst s.
        destruct rest as [|c1 rest']; [done|]. simpl in Hp.
        destruct rest'; simpl in Hp; lia.
      + destruct (String.prefix s o') eqn:Hso; [|done]. injection Hf as -> -> <-.
        destruct (prefix_comparable _ _ _ Hp Hso) as [Hps|Hsp]; [done|].
        exfalso. subst s p. destruct rest as [|c1 rest']; [done|].
        apply prefix_cons in Hsp as [-> Hsp]. apply prefix_cons in Hsp as [-> _].
        done. }
  destruct (split_first "=" s) as [[o e0]|] eqn:Hsplit.
  - destruct (lookup_option tbl o) as [a1|] eqn:Hl.
    { injection Hparse as <- <- <-.
      eapply prefix_trans; [done|]. by eapply split_first_prefix. }
    destruct (get_option_tuples tbl s) as [|[[a2 o2] e2] [|]] eqn:Hg;
      [by repeat case_match| |done].
    injection Hparse as <- <- <-. by eapply Habbrev.
  - destruct (get_option_tuples tbl s) as [|[[a2 o2] e2] [|]] eqn:Hg;
      [by repeat case_match| |done].
    injection Hparse as <- <- <-. by eapply Habbrev.
Qed.

Lemma classify_fst (tbl : list (string * Argument)) (argv : list string)
    (cs : list (string * tclass)) :
  classify tbl argv = inr cs -> map fst cs = argv.
Proof.
  revert cs. induction argv as [|s argv IH]; intros cs; simpl.
  - by intros [= <-].
  - destruct (String.eqb s "--").
    + intros [= <-]. simpl. f_equal. rewrite map_map. simpl. apply map_id.
    + destruct (parse_optional tbl s) as [|c]; [done|].
      destruct (classify tbl argv) as [|cs']; [done|].
      intros [= <-]. simpl. f_equal. by apply IH.
Qed.

Lemma classify_tok (tbl : list (string * Argument)) (Q : Argument -> Prop)
    (argv : list string) (cs : list (string * tclass)) :
  (forall s a opt e, In s argv -> parse_optional tbl s = inr (TO a opt e) -> Q a) ->
  classify tbl argv = inr cs -> Forall (tok_ok Q) cs.
Proof.
  revert cs. induction argv as [|s argv IH]; intros cs HQ; simpl.
  - intros [= <-]. constructor.
  - destruct (String.eqb s "--").
    + intros [= <-]. constructor; [done|].
      apply Forall_forall. intros [x c] Hin. apply list_elem_of_In, in_map_iff in Hin.
      destruct Hin as (y & [= <- <-] & _). done.
    + destruct (parse_optional tbl s) as [|c] eqn:Hp; [done|].
      destruct (classify tbl argv) as [|cs']; [done|].
      intros [= <-]. constructor.
      * unfold tok_ok. simpl. destruct c; try done. eapply HQ; [by left|done].
      * apply IH; [|done]. intros s' a opt e Hin. apply HQ. by right.
Qed.

(** Whatever holds of every action of the table holds of every option read. *)
Lemma classify_all (tbl : list (string * Argument)) (Q : Argument -> Prop)
    (argv : list string) (cs : list (string * tclass)) :
  (forall o a, In (o, a) tbl -> Q a) ->
  classify tbl argv = inr cs -> Forall (tok_ok Q) cs.
Proof.
  intros HQ. apply classify_tok. intros s a opt e _ Hp.
  apply parse_optional_In in Hp. by eapply HQ.
Qed.

(** When no argument string starts like the options that store under [d],
    no option read stores under [d]. *)
Lemma classify_behind (tbl : list (string * Argument)) (d : string) (c : ascii)
    (argv : list string) (cs : list (string * tclass)) :
  (2 <= length (long_options tbl))%nat ->
  dest_behind tbl d (String "-" (String "-" (String c EmptyString))) = true ->
  none_starts_with (String "-" (String "-" (String c EmptyString))) argv ->
  classify tbl argv = inr cs -> Forall (tok_ok (fun a => dest a <> d)) cs.
Proof.
  intros Hlong Hb Hnone. apply classify_tok. intros s a opt e Hin Hp Hd.
  pose proof (parse_optional_In _ _ _ _ _ Hp) as Hin_tbl.
  unfold dest_behind in Hb. rewrite forallb_forall in Hb.
  specialize (Hb _ Hin_tbl). cbn [fst snd] in Hb. rewrite Hd, String.eqb_refl in Hb.
  cbn [negb orb] in Hb. eapply parse_optional_starts in Hb; [|done|done].
  unfold none_starts_with in Hnone. rewrite Forall_forall in Hnone.
  apply list_elem_of_In in Hin. specialize (Hnone _ Hin). congruence.
Qed.

Lemma short_option_behind (tbl : list (string * Argument)) (d p : string)
    (c : ascii) (a : Argument) :
  (3 <= String.length p)%nat ->
  dest_behind tbl d p = true ->
  lookup_option tbl (String "-" (String c EmptyString)) = Some a -> dest a <> d.
Proof.
  intros Hlen Hb Hl Hd. apply lookup_option_In in Hl.
  unfold dest_behind in Hb. rewrite forallb_forall in Hb.
  specialize (Hb _ Hl). cbn [fst snd] in Hb. rewrite Hd, String.eqb_refl in Hb.
  cbn [negb orb] in Hb. apply prefix_length in Hb. simpl in Hb. lia.
Qed.

(* --------------------------------------------------------------------- *)
(** ** What a finished parse guarantees *)
(* --------------------------------------------------------------------- *)

(** A property of the namespace that every action allowed by [Q] keeps holds
    of the namespace [parse_known_args] returns. *)
Lemma parse_known_args_inv (args : list Argument) (defaults : list (string * value))
    (argv : list string) (m : gmap string value) (ex : list string)
    (Q : Argument -> Prop) (P : gmap string value -> Prop) :
  (forall c a, lookup_option (option_table args) (String "-" (String c EmptyString))
               = Some a -> Q a) ->
  (forall cs, classify (option_table args) argv = inr cs -> Forall (tok_ok Q) cs) ->
  Forall Q (filter is_positional args) ->
  (forall a val m0, Q a -> written a val -> P m0 -> P (<[dest a := val]> m0)) ->
  P (initial_namespace args defaults ∅) ->
  parse_known_args args defaults argv = Parsed (m, ex) -> P m.
Proof.
  intros Hshort Hcls Hpos Hstep Hinit. unfold parse_known_args.
  destruct (classify (option_table args) argv) as [|cs] eqn:Hc; [done|].
  match goal with
  | |- context [consume _ _ _ ?s0] => set (st0 := s0)
  end.
  destruct (consume (option_table args) None cs st0) as [st| |] eqn:Hrun; try done.
  destruct (missing_required args st); [|done]. intros [= <- <-].
  pose (I := fun st : state => P (ns st) /\ Forall Q (pending st)).
  assert (HI : I st \/ exists f vals st1,
                 None = Some f /\ I st1 /\ vals `suffix_of` map fst cs /\ vals <> []
                 /\ f vals st1 = Parsed st).
  { refine (consume_inv (option_table args) None Q I _ _ _ _ _ cs st0 st _ _ _).
    - exact Hshort.
    - intros s0 st1 [? ?]. by split.
    - intros n b st1 [? ?]. by split.
    - intros st1 p0 ps Hp [HP HQ]. simpl in *. rewrite Hp in HQ.
      apply Forall_cons in HQ as [? ?]. by repeat split.
    - intros a val st1 Ha Hw [HP HQ]. split; simpl in *; [by apply Hstep|done].
    - by apply Hcls.
    - by split.
    - exact Hrun. }
  destruct HI as [[HP _]|(f & ? & ? & ? & _)]; done.
Qed.

(** An attribute keeps its default when no argument string can stand for an
    option that stores under it. *)
Lemma default_kept (args : list Argument) (defaults : list (string * value))
    (argv : list string) (m : gmap string value) (ex : list string)
    (d : string) (c : ascii) :
  (2 <= length (long_options (option_table args)))%nat ->
  dest_behind (option_table args) d (String "-" (String "-" (String c EmptyString))) = true ->
  Forall (fun a => dest a <> d) (filter is_positional args) ->
  none_starts_with (String "-" (String "-" (String c EmptyString))) argv ->
  parse_known_args args defaults argv = Parsed (m, ex) ->
  m !! d = initial_namespace args defaults ∅ !! d.
Proof.
  intros Hlong Hb Hpos Hnone.
  apply (parse_known_args_inv args defaults argv m ex (fun a => dest a <> d)
           (fun m0 => m0 !! d = initial_namespace args defaults ∅ !! d)).
  - intros c0 a. by apply short_option_behind with (p := String "-" (String "-" (String c EmptyString))).
  - intros cs. by apply classify_behind with (c := c).
  - done.
  - intros a val m0 Ha _ Hm. by rewrite lookup_insert_ne.
  - done.
Qed.

Lemma option_table_In (args : list Argument) (o : string) (a : Argument) :
  In (o, a) (option_table args) -> In a args.
Proof.
  unfold option_table. rewrite in_flat_map. intros (a' & Hin & Hmap).
  apply in_map_iff in Hmap as (s & [= <- <-] & _). done.
Qed.


(** A parse that ends with a namespace went through exactly one sub-command:
    its name and arguments are a tail of the argument list, its parser
    accepted them leaving nothing over, and its namespace lies over the
    top-level one. *)
Lemma parse_args_parsed (p : ArgumentParser) (argv : list string)
    (ns0 : gmap string value) (J : gmap string value -> Prop) :
  sub_required p = true ->
  Forall (fun a => dest a <> sub_dest p) (help_action :: arguments p) ->
  (forall a val m, In a (help_action :: arguments p) -> written a val ->
                   J m -> J (<[dest a := val]> m)) ->
  J (initial_namespace (help_action :: arguments p) [] {[ sub_dest p := VNone ]}) ->
  Argparse.parse_args p argv = Parsed ns0 ->
  exists name argv' sp subns top,
    (name :: argv') `suffix_of` argv
    /\ find (fun sp => String.eqb (sp_name sp) name) (commands p) = Some sp
    /\ parse_known_args (help_action :: sp_arguments sp) (sp_defaults sp) argv'
       = Parsed (subns, [])
    /\ J top
    /\ ns0 = subns ∪ <[sub_dest p := VStr name]> top.
Proof.
  intros Hreq Hdest HJ Hinit. unfold Argparse.parse_args.
  set (args := help_action :: arguments p) in *.
  destruct (classify (option_table args) argv) as [|cs] eqn:Hc; [done|].
  match goal with
  | |- context [consume _ _ _ ?s0] => set (st0 := s0)
  end.
  destruct (consume (option_table args) (Some (run_subcommand p)) cs st0)
    as [st| |] eqn:Hrun; try done.
  intros Hend.
  pose (Q := fun a : Argument => In a args).
  pose (I := fun st : state =>
               member (sub_dest p) (seen st) = false /\ pending st = [] /\ J (ns st)).
  assert (HI : I st \/ exists f vals st1,
                 Some (run_subcommand p) = Some f /\ I st1
                 /\ vals `suffix_of` map fst cs /\ vals <> []
                 /\ f vals st1 = Parsed st).
  { refine (consume_inv (option_table args) _ Q I _ _ _ _ _ cs st0 st _ _ _).
    - intros c a Hl. eapply option_table_In. by apply lookup_option_In.
    - intros s0 st1 (? & ? & ?). by repeat split.
    - intros n b st1 (? & ? & ?). by repeat split.
    - intros st1 p0 ps Hp (_ & Hnil & _). congruence.
    - intros a val st1 Ha Hw (Hm & Hp & Hj). repeat split; simpl; [|done|by apply HJ].
      rewrite Forall_forall in Hdest. apply list_elem_of_In in Ha.
      specialize (Hdest _ Ha).
      destruct (String.eqb_spec (sub_dest p) (dest a)); [congruence|done].
    - eapply classify_all; [|done]. intros o a. apply option_table_In.
    - by repeat split.
    - exact Hrun. }
  destruct HI as [(Hm & _ & _)|(f & vals & st1 & [= <-] & (_ & _ & Hj) & Hsuf & Hne & Hf)].
  { rewrite Hreq, Hm in Hend. simpl in Hend.
    destruct (missing_required args st); done. }
  rewrite (classify_fst _ _ _ Hc) in Hsuf.
  unfold run_subcommand in Hf. destruct vals as [|name argv']; [done|].
  destruct (find _ (commands p)) as [sp|] eqn:Hfind; [|done].
  destruct (parse_known_args _ _ argv') as [[subns more]| |] eqn:Hsub; try done.
  injection Hf as <-. simpl in Hend.
  destruct (_ ++ _) as [|? ?]; [|done].
  destruct (extras st1 ++ more) as [|? ?] eqn:Hex; [|done].
  apply app_eq_nil in Hex as [_ ->]. injection Hend as <-.
  exists name, argv', sp, subns, (ns st1). by repeat split.
Qed.

(** An attribute no action stores under keeps the value it starts with. *)
Lemma not_a_dest (args : list Argument) (defaults : list (string * value))
    (argv : list string) (m : gmap string value) (ex : list string) (k : string) :
  Forall (fun a => dest a <> k) args ->
  parse_known_args args defaults argv = Parsed (m, ex) ->
  m !! k = initial_namespace args defaults ∅ !! k.
Proof.
  intros Hargs. rewrite Forall_forall in Hargs.
  apply (parse_known_args_inv args defaults argv m ex (fun a => dest a <> k)
           (fun m0 => m0 !! k = initial_namespace args defaults ∅ !! k)).
  - intros c a Hl. apply Hargs, list_elem_of_In. eapply option_table_In.
    by apply lookup_option_In.
  - intros cs. apply classify_all. intros o a Hin.
    apply Hargs, list_elem_of_In. by eapply option_table_In.
  - apply Forall_forall. intros a Hin. apply Hargs.
    by apply list_elem_of_filter in Hin as [_ ?].
  - intros a val m0 Ha _ Hm. by rewrite lookup_insert_ne.
  - done.
Qed.

(* ===================================================================== *)
(** * The parser of cli.py *)
(* ===================================================================== *)

Section CliParser.

Variable version : string.
Variable MODES : list string.

Abbreviation the_parser := (Cli.parser version MODES).
Abbreviation cli_parse := (Cli.parse_args version MODES).
Abbreviation sub_args sp := (help_action :: sp_arguments sp).

(** A namespace [parse_args] returns: the sub-command's namespace over the
    top-level one, which holds [loglevel] (and [command]) and nothing else. *)
Lemma cli_parsed (argv : list string) (ns0 : gmap string value) :
  cli_parse argv = Parsed ns0 ->
  exists name argv' sp subns top,
    (name :: argv') `suffix_of` argv
    /\ In sp (commands the_parser) /\ sp_name sp = name
    /\ parse_known_args (sub_args sp) (sp_defaults sp) argv' = Parsed (subns, [])
    /\ is_Some (top !! "loglevel")
    /\ (forall k, k <> "loglevel" -> k <> "command" -> top !! k = None)
    /\ ns0 = subns ∪ <["command" := VStr name]> top.
Proof.
  intros Hparse.
  destruct (parse_args_parsed the_parser argv ns0
              (fun m => is_Some (m !! "loglevel")
                        /\ forall k, k <> "loglevel" -> k <> "command" -> m !! k = None))
    as (name & argv' & sp & subns & top & Hsuf & Hfind & Hsub & [Htop Honly] & Hns).
  - done.
  - repeat constructor; done.
  - intros a val m Ha Hw [[v Hv] Honly].
    destruct Ha as [<- | [<- | [<- | []]]]; try done.
    split.
    + rewrite lookup_insert_eq. eauto.
    + intros k Hk1 Hk2. rewrite lookup_insert_ne by done. by apply Honly.
  - assert (Hinit : initial_namespace (help_action :: arguments the_parser) []
                      {[ sub_dest the_parser := VNone ]}
                    = <["loglevel" := VNone]> {[ "command" := VNone ]})
      by reflexivity.
    rewrite Hinit. split.
    + rewrite lookup_insert_eq. by eexists.
    + intros k Hk1 Hk2. rewrite lookup_insert_ne by done.
      by rewrite lookup_singleton_ne.
  - exact Hparse.
  - exists name, argv', sp, subns, top. repeat split; try done.
    + apply find_some in Hfind as [? _]. done.
    + apply find_some in Hfind as [_ Heq]. by apply String.eqb_eq in Heq.
Qed.

(** The three sub-commands store nothing under [command], [func] or
    [loglevel]. *)
Lemma sub_args_dests (sp : SubParser) (k : string) :
  In sp (commands the_parser) ->
  k = "command" \/ k = "func" \/ k = "loglevel" ->
  Forall (fun a => dest a <> k) (sub_args sp).
Proof.
  intros Hsp Hk. simpl in Hsp.
  destruct Hsp as [<- | [<- | [<- | []]]]; destruct Hk as [-> | [-> | ->]];
    repeat constructor; done.
Qed.

Lemma cli_command (argv : list string) (ns0 : gmap string value) :
  cli_parse argv = Parsed ns0 ->
  exists name argv' sp subns,
    (name :: argv') `suffix_of` argv
    /\ In sp (commands the_parser) /\ sp_name sp = name
    /\ parse_known_args (sub_args sp) (sp_defaults sp) argv' = Parsed (subns, [])
    /\ ns0 !! "command" = Some (VStr name)
    /\ is_Some (ns0 !! "loglevel")
    /\ ns0 !! "func" = initial_namespace (sub_args sp) (sp_defaults sp) ∅ !! "func"
    /\ (forall k, k <> "loglevel" -> k <> "command" -> ns0 !! k = subns !! k).
Proof.
  intros Hparse.
  destruct (cli_parsed _ _ Hparse) as
      (name & argv' & sp & subns & top & Hsuf & Hsp & Hname & Hsub & Htop & Honly & ->).
  exists name, argv', sp, subns. repeat split; try done.
  - rewrite lookup_union_r.
    + by rewrite lookup_insert_eq.
    + rewrite (not_a_dest _ _ _ _ _ "command" (sub_args_dests sp "command" Hsp ltac:(tauto)) Hsub).
      simpl in Hsp. destruct Hsp as [<- | [<- | [<- | []]]]; reflexivity.
  - rewrite lookup_union_r.
    + by rewrite lookup_insert_ne.
    + rewrite (not_a_dest _ _ _ _ _ "loglevel" (sub_args_dests sp "loglevel" Hsp ltac:(tauto)) Hsub).
      simpl in Hsp. destruct Hsp as [<- | [<- | [<- | []]]]; reflexivity.
  - pose proof (not_a_dest _ _ _ _ _ "func" (sub_args_dests sp "func" Hsp ltac:(tauto)) Hsub)
      as Hfunc.
    rewrite <- Hfunc.
    assert (Hsome : is_Some (subns !! "func")).
    { rewrite Hfunc. simpl in Hsp. destruct Hsp as [<- | [<- | [<- | []]]]; by eexists. }
    destruct Hsome as [v Hv]. rewrite Hv. by apply lookup_union_Some_l.
  - intros k Hk1 Hk2. destruct (subns !! k) as [v|] eqn:Hk.
    + by apply lookup_union_Some_l.
    + rewrite lookup_union_r by done. rewrite lookup_insert_ne by done.
      by apply Honly.
Qed.

End CliParser.

(* ===================================================================== *)
(** * Exit codes, banners and the order of the checks *)
(* ===================================================================== *)

Section ValidateChecksum.

Variable Manifest : Type.
Variable ChecksumFile_parse : ChecksumFile -> string -> outcome Manifest.
Variable ChecksumFile_verify :
  ChecksumFile -> Manifest -> bool -> FS.World -> outcome unit.

Abbreviation validate :=
  (validate_checksum Manifest ChecksumFile_parse ChecksumFile_verify).



(** C9.  When the manifest does not exist, the handler has chosen the differ
    first (for 'auto': listed the project root), then constructed the
    [ChecksumFile], then asked whether the manifest exists, and returns 1
    after the message; if choosing the differ raises, the existence check is
    never reached.  In neither case is the manifest opened, read or parsed,
    or [verify] called. *)
Theorem differ_chosen_before_manifest_check (args : gmap string value)
    (scm project_root checksum_file : string) (ignore : bool) (w : FS.World) :
  vc_args args scm project_root checksum_file ignore ->
  FS.exists_ w checksum_file = false ->
  (forall d l, get_differ scm project_root w = (Return d, l) ->
     validate args w =
       (Return (Some 1),
        l ++ [EvNew project_root d; EvExists checksum_file;
              missing_banner checksum_file]))
  /\ (forall e l, get_differ scm project_root w = (Raise e, l) ->
        validate args w = (Raise e, l))
  /\ (scm = "auto" -> forall entries,
        FS.resolve w project_root = inr (FS.Dir entries) ->
        exists d, validate args w =
          (Return (Some 1),
           [EvListdir project_root; EvNew project_root d;
            EvExists checksum_file; missing_banner checksum_file]))
  /\ forallb (fun ev => negb (touches_manifest ev)) (snd (validate args w)) = true.
Proof.
  intros Hargs Hex.
  assert (H1 : forall d l, get_differ scm project_root w = (Return d, l) ->
     validate args w =
       (Return (Some 1),
        l ++ [EvNew project_root d; EvExists checksum_file;
              missing_banner checksum_file])).
  { intros d l Hd. by eapply validate_missing. }
  assert (H2 : forall e l, get_differ scm project_root w = (Raise e, l) ->
        validate args w = (Raise e, l)).
  { intros e l Hd. by eapply validate_differ_raises. }
  repeat split; try done.
  - intros -> entries Hres. eexists.
    apply (H1 _ [EvListdir project_root]). by apply auto_on_directory.
  - destruct (get_differ scm project_root w) as [[d|e] l] eqn:Hd.
    + rewrite (H1 _ _ eq_refl). simpl.
      pose proof (get_differ_log scm project_root w) as Hl. rewrite Hd in Hl.
      simpl in Hl. by destruct Hl as [-> | ->].
    + rewrite (H2 _ _ eq_refl). simpl.
      pose proof (get_differ_log scm project_root w) as Hl. rewrite Hd in Hl.
      simpl in Hl. by destruct Hl as [-> | ->].
Qed.

End ValidateChecksum.





Lemma differ_chosen_before_manifest_check_witness :
  exists d,
    validate_checksum string stub_parse (stub_verify (Return tt))
      (sample_args "auto" "proj" "missing.txt") sample_world
    = (Return (Some 1),
       [EvListdir "proj"; EvNew "proj" d; EvExists "missing.txt";
        missing_banner "missing.txt"]).
Proof.
  destruct (differ_chosen_before_manifest_check string stub_parse
              (stub_verify (Return tt))
              (sample_args "auto" "proj" "missing.txt")
              "auto" "proj" "missing.txt" false sample_world)
    as (_ & _ & Hauto & _).
  - repeat split; vm_compute; reflexivity.
  - vm_compute. reflexivity.
  - apply (Hauto eq_refl [("a.txt", FS.File "hi"); ("b.txt", FS.File "bye")]).
    vm_compute. reflexivity.
Defined.

Lemma auto_detection_by_name_only_witness :
  fst (determine_differ_from_auto "proj" git_file_world)
    = Return GitChecksumFileExistenceDiffer
  /\ fst (determine_differ_from_auto "proj" nested_git_world)
    = Return DirectoryChecksumFileExistenceDiffer.
Proof.
  split.
  - destruct (auto_detection_by_name_only git_file_world "proj"
                [(".git", FS.File "gitdir: /elsewhere"); ("a.txt", FS.File "hi")])
      as (_ & Hfile & _); [vm_compute; reflexivity|].
    apply (Hfile "gitdir: /elsewhere"). left. reflexivity.
  - destruct (auto_detection_by_name_only nested_git_world "proj"
                [("vendor", FS.Dir [(".git", FS.Dir [])]);
                 (".svn", FS.Dir []); (".hg", FS.Dir [])])
      as (_ & _ & _ & Hnested); [vm_compute; reflexivity|].
    apply (Hnested "vendor" [] [(".svn", FS.Dir []); (".hg", FS.Dir [])]);
      [discriminate | reflexivity | reflexivity].
Defined.

(* ===================================================================== *)
(** * What the handler is called with, and what it passes on *)
(* ===================================================================== *)

Section Events.

Variable Manifest : Type.
Variable ChecksumFile_parse : ChecksumFile -> string -> outcome Manifest.
Variable ChecksumFile_verify :
  ChecksumFile -> Manifest -> bool -> FS.World -> outcome unit.

(** Every path and flag in the log of [validate_checksum] is an attribute of
    the namespace, passed on as it is. *)
Lemma validate_events (args : gmap string value) (w : FS.World) (ev : event) :
  ev ∈ snd (validate_checksum Manifest ChecksumFile_parse ChecksumFile_verify args w) ->
  match ev with
  | EvExists p | EvOpenRead p => args !! "checksum_file" = Some (VStr p)
  | EvVerify r _ b =>
      args !! "project_root" = Some (VStr r)
      /\ args !! "ignore_file_list_differences" = Some (VBool (negb b))
  | EvListdir p | EvNew p _ => args !! "project_root" = Some (VStr p)
  | _ => True
  end.
Proof.
  unfold validate_checksum. run_py.
  destruct (args !! "scm") as [[| | |scm|]|]; simpl; try (intros H; by in_log H).
  destruct (args !! "project_root") as [[| | |project_root|]|]; simpl;
    try (intros H; by in_log H).
  pose proof (get_differ_log scm project_root w) as Hl.
  destruct (get_differ scm project_root w) as [[d|e] l]; simpl in Hl |- *.
  2:{ intros H. destruct Hl as [-> | ->]; in_log H; by subst. }
  assert (Hin_l : forall ev', ev' ∈ l -> ev' = EvListdir project_root).
  { intros ev' H. destruct Hl as [-> | ->]; in_log H; done. }
  destruct (args !! "checksum_file") as [[| | |checksum_file|]|]; simpl;
    try (intros H; in_log H; try apply Hin_l in H; by subst).
  destruct (FS.exists_ w checksum_file); simpl.
  2:{ intros H; in_log H; try apply Hin_l in H; by subst. }
  destruct (FS.read_text w checksum_file) as [err|text]; simpl.
  { intros H; in_log H; try apply Hin_l in H; by subst. }
  destruct (ChecksumFile_parse _ text) as [m|err]; simpl.
  2:{ intros H; in_log H; try apply Hin_l in H; by subst. }
  destruct (args !! "ignore_file_list_differences") as [[|b| | |]|]; simpl;
    try (intros H; in_log H; try apply Hin_l in H; by subst).
  destruct (ChecksumFile_verify _ m (negb b) w) as [[]|[]]; simpl;
    intros H; in_log H; try apply Hin_l in H; subst; try done;
    by rewrite negb_involutive.
Qed.

End Events.

(* ===================================================================== *)
(** * Defaults, choices and the wiring of the flags *)
(* ===================================================================== *)

Lemma none_starts_with_suffix (p : string) (l1 l2 : list string) :
  l1 `suffix_of` l2 -> none_starts_with p l2 -> none_starts_with p l1.
Proof.
  intros [k ->]. unfold none_starts_with. rewrite Forall_app. tauto.
Qed.

Section CliDefaults.

Variable version : string.
Variable MODES : list string.

Abbreviation cli_parse' := (Cli.parse_args version MODES).

(** The sub-command behind a parsed namespace, by its [command] attribute. *)
Lemma sub_of_command (argv : list string) (ns0 : gmap string value) (sp : SubParser) :
  In sp (commands (Cli.parser version MODES)) ->
  cli_parse' argv = Parsed ns0 ->
  ns0 !! "command" = Some (VStr (sp_name sp)) ->
  exists argv' subns,
    argv' `suffix_of` argv
    /\ parse_known_args (help_action :: sp_arguments sp) (sp_defaults sp) argv'
       = Parsed (subns, [])
    /\ (forall k, k <> "loglevel" -> k <> "command" -> ns0 !! k = subns !! k).
Proof.
  intros Hsp Hparse Hcmd.
  destruct (cli_command version MODES _ _ Hparse) as
      (name & argv' & sp' & subns & Hsuf & Hsp' & Hname & Hsub & Hcmd' & _ & _ & Hk).
  rewrite Hcmd' in Hcmd. injection Hcmd as Heq. rewrite <- Hname in Heq.
  assert (sp' = sp) as ->.
  { simpl in Hsp, Hsp'.
    destruct Hsp as [<- | [<- | [<- | []]]];
      destruct Hsp' as [<- | [<- | [<- | []]]]; done. }
  exists argv', subns. repeat split; try done.
  etrans; [|exact Hsuf]. apply suffix_cons_r. reflexivity.
Qed.

(** An attribute of a sub-command keeps its default when no argument string
    starts like the options that store under it. *)
Lemma cli_default_kept (argv : list string) (ns0 : gmap string value)
    (sp : SubParser) (d : string) (c : ascii) (v : value) :
  In sp (commands (Cli.parser version MODES)) ->
  d <> "loglevel" -> d <> "command" ->
  dest_behind (option_table (help_action :: sp_arguments sp)) d
    (String "-" (String "-" (String c EmptyString))) = true ->
  Forall (fun a => dest a <> d) (filter is_positional (help_action :: sp_arguments sp)) ->
  initial_namespace (help_action :: sp_arguments sp) (sp_defaults sp) ∅ !! d = Some v ->
  cli_parse' argv = Parsed ns0 ->
  ns0 !! "command" = Some (VStr (sp_name sp)) ->
  none_starts_with (String "-" (String "-" (String c EmptyString))) argv ->
  ns0 !! d = Some v.
Proof.
  intros Hsp Hd1 Hd2 Hb Hpos Hinit Hparse Hcmd Hnone.
  destruct (sub_of_command _ _ _ Hsp Hparse Hcmd) as (argv' & subns & Hsuf & Hsub & Hk).
  rewrite Hk by done. rewrite <- Hinit.
  apply (default_kept _ _ argv' subns [] d c); try done.
  - simpl in Hsp. destruct Hsp as [<- | [<- | [<- | []]]]; vm_compute; lia.
  - by eapply none_starts_with_suffix.
Qed.



End CliDefaults.

Lemma parsed_ok (r : result (gmap string value)) :
  is_parsed r = true -> r = Parsed (namespace_of r).
Proof. by destruct r. Qed.


Section Wiring.

Variable version : string.
Variable MODES : list string.
Variable Manifest : Type.
Variable ChecksumFile_parse : ChecksumFile -> string -> outcome Manifest.
Variable ChecksumFile_verify :
  ChecksumFile -> Manifest -> bool -> FS.World -> outcome unit.

Abbreviation validate' :=
  (validate_checksum Manifest ChecksumFile_parse ChecksumFile_verify).


(** Once the differ is chosen, the handler asks whether the manifest exists,
    under the path of the namespace, and returns 1 exactly when it does not. *)
Lemma manifest_check_decides (args : gmap string value)
    (scm project_root checksum_file : string) (ignore : bool) (w : FS.World)
    (d : Differ) (l : list event) :
  vc_args args scm project_root checksum_file ignore ->
  get_differ scm project_root w = (Return d, l) ->
  EvExists checksum_file ∈ snd (validate' args w)
  /\ (fst (validate' args w) = Return (Some 1)
      <-> FS.exists_ w checksum_file = false).
Proof.
  intros Hargs Hd.
  destruct (FS.exists_ w checksum_file) eqn:Hex.
  - assert (Hrun : exists r l',
               validate' args w =
                 (r, l ++ EvNew project_root d :: EvExists checksum_file :: l')
               /\ r <> Return (Some 1)).
    { destruct (FS.read_text w checksum_file) as [e|text] eqn:Hrd.
      { eexists _, _. split; [|shelve].
        by apply (validate_unreadable Manifest ChecksumFile_parse ChecksumFile_verify
                    _ _ _ _ _ w Hargs d l e). }
      destruct (ChecksumFile_parse {| root := project_root; differ := d |} text)
        as [m|e] eqn:Hp.
      2:{ eexists _, _. split; [|shelve].
          by apply (validate_unparsable Manifest ChecksumFile_parse ChecksumFile_verify
                      _ _ _ _ _ w Hargs d l text e). }
      pose proof (validate_verifies Manifest ChecksumFile_parse ChecksumFile_verify
                    _ _ _ _ _ w Hargs d l text m Hd Hrd Hp) as Hrun.
      cbv zeta in Hrun. rewrite Hrun.
      destruct (ChecksumFile_verify _ m (negb ignore) w) as [[]|[]];
        eexists _, _; (split; [rewrite <- ?app_assoc; reflexivity|shelve]).
      Unshelve. all: discriminate. }
    destruct Hrun as (r & l' & -> & Hr). simpl. split.
    + rewrite elem_of_app, !elem_of_cons. tauto.
    + split; [done|discriminate].
  - rewrite (validate_missing Manifest ChecksumFile_parse ChecksumFile_verify
               _ _ _ _ _ w Hargs d l Hd Hex). simpl. split; [|done].
    rewrite elem_of_app, !elem_of_cons. tauto.
Qed.

(** C10.  The manifest path of validate-checksum is 'sha256sum.txt' when no
    [--checksum-file] is given, and the signature path of
    validate-gpg-signature (a sub-command without any project root) is
    'sha256sum.txt.sig' when no [--signature-file] is given.  The handler
    hands the manifest path to [os.path.exists] and [open] exactly as it
    stands in the namespace: the project root is no part of it, and whether
    the handler reports a missing manifest depends on that path alone. *)
Theorem manifest_path_as_given :
  (forall argv ns0,
     Cli.parse_args version MODES argv = Parsed ns0 ->
     ns0 !! "command" = Some (VStr "validate-checksum") ->
     none_starts_with "--c" argv ->
     ns0 !! "checksum_file" = Some (VStr "sha256sum.txt"))
  /\ (forall argv ns0,
        Cli.parse_args version MODES argv = Parsed ns0 ->
        ns0 !! "command" = Some (VStr "validate-gpg-signature") ->
        none_starts_with "--s" argv ->
        ns0 !! "signature_file" = Some (VStr "sha256sum.txt.sig"))
  /\ Forall (fun a => dest a <> "project_root")
            (sp_arguments cmd_validate_gpg_signature)
  /\ (forall args w p,
        EvExists p ∈ snd (validate' args w) \/ EvOpenRead p ∈ snd (validate' args w) ->
        args !! "checksum_file" = Some (VStr p))
  /\ (forall args scm project_root checksum_file ignore w d l,
        vc_args args scm project_root checksum_file ignore ->
        get_differ scm project_root w = (Return d, l) ->
        EvExists checksum_file ∈ snd (validate' args w)
        /\ (fst (validate' args w) = Return (Some 1)
            <-> FS.exists_ w checksum_file = false)).
Proof.
  split; [|split; [|split; [|split]]].
  - intros argv ns0 Hparse Hcmd Hnone.
    apply (cli_default_kept version MODES argv ns0 cmd_validate_checksum
             "checksum_file" "c"); try done;
      first [reflexivity | simpl; tauto | vm_compute; repeat constructor; done].
  - intros argv ns0 Hparse Hcmd Hnone.
    apply (cli_default_kept version MODES argv ns0 cmd_validate_gpg_signature
             "signature_file" "s"); try done;
      first [reflexivity | simpl; tauto | vm_compute; repeat constructor; done].
  - repeat constructor; done.
  - intros args w p [Hin|Hin]; by apply validate_events in Hin.
  - intros args scm project_root checksum_file ignore w d l Hargs Hd.
    by eapply manifest_check_decides.
Qed.

End Wiring.

(* ===================================================================== *)
(** * Rejected and unimplemented invocations *)
(* ===================================================================== *)

Section Rejection.

Variable version : string.
Variable MODES : list string.


Abbreviation manifest_args := (help_action :: sp_arguments (cmd_checksum_manifest MODES)).
Abbreviation manifest_defaults := (sp_defaults (cmd_checksum_manifest MODES)).




End Rejection.

Section Main.

Variable version : string.
Variable MODES : list string.
Variable Manifest : Type.
Variable ChecksumFile_parse : ChecksumFile -> string -> outcome Manifest.
Variable ChecksumFile_verify :
  ChecksumFile -> Manifest -> bool -> FS.World -> outcome unit.

Abbreviation main' :=
  (Cli.main version MODES Manifest ChecksumFile_parse ChecksumFile_verify).





End Main.

(* ===================================================================== *)
(** * The statements at concrete inputs *)
(* ===================================================================== *)




Lemma manifest_path_as_given_witness :
  FS.exists_ manifest_inside_world "proj/sha256sum.txt" = true
  /\ fst (validate_checksum string stub_parse (stub_verify (Return tt))
            (sample_args "auto" "proj" "sha256sum.txt") manifest_inside_world)
     = Return (Some 1).
Proof.
  split; [vm_compute; reflexivity|].
  destruct (manifest_path_as_given "0.1" spec_MODES string stub_parse
              (stub_verify (Return tt))) as (_ & _ & _ & _ & Hcheck).
  destruct (Hcheck (sample_args "auto" "proj" "sha256sum.txt")
              "auto" "proj" "sha256sum.txt" false manifest_inside_world
              DirectoryChecksumFileExistenceDiffer [EvListdir "proj"])
    as [_ Hiff].
  - repeat split; vm_compute; reflexivity.
  - vm_compute. reflexivity.
  - apply Hiff. vm_compute. reflexivity.
Defined.


(* ===================================================================== *)
(** * Further properties of the handlers *)
(* ===================================================================== *)

(** X1.  [DIFFER_MAP[scm]] for a name that is neither 'auto' nor a key of the
    map: [get_differ] raises [KeyError] with that name and has looked at
    nothing. *)
Theorem get_differ_unknown_name (scm project_root : string) (w : FS.World) :
  scm <> "auto" -> scm <> "git" -> scm <> "directory" ->
  get_differ scm project_root w = (Raise (KeyError scm), []).
Proof.
  intros Hauto Hgit Hdir. unfold get_differ.
  destruct (String.eqb_spec scm "auto"); [done|].
  unfold DIFFER_MAP, dict_get.
  destruct (String.eqb_spec "git" scm); [done|].
  destruct (String.eqb_spec "directory" scm); [done|]. reflexivity.
Qed.

Lemma get_differ_unknown_name_witness :
  get_differ "svn" "proj" sample_world = (Raise (KeyError "svn"), []).
Proof.
  apply (get_differ_unknown_name "svn" "proj" sample_world); discriminate.
Defined.



Section Reports.

Variable Manifest : Type.
Variable ChecksumFile_parse : ChecksumFile -> string -> outcome Manifest.
Variable ChecksumFile_verify :
  ChecksumFile -> Manifest -> bool -> FS.World -> outcome unit.

Abbreviation validate_cs :=
  (validate_checksum Manifest ChecksumFile_parse ChecksumFile_verify).

Lemma stdout_app (l1 l2 : list event) : stdout (l1 ++ l2) = stdout l1 ++ stdout l2.
Proof. unfold stdout. apply omap_app. Qed.

Lemma stdout_differ_log (scm project_root : string) (w : FS.World) :
  stdout (snd (get_differ scm project_root w)) = [].
Proof. by destruct (get_differ_log scm project_root w) as [-> | ->]. Qed.

(** X3.  What [validate_checksum] prints goes with how it ends, for every
    namespace and world: when it raises (a missing attribute, a root that
    cannot be listed, a manifest that cannot be read or parsed, any exception
    of [verify] other than [ChecksumMismatch]) it has printed nothing; it
    returns nothing only after the success banner; and the only integers it
    returns are 1, after the one-line message about the missing manifest, and
    2, after the failure banner and one more line. *)
Theorem validate_checksum_reports (args : gmap string value) (w : FS.World) :
  match fst (validate_cs args w) with
  | Raise _ => stdout (snd (validate_cs args w)) = []
  | Return None =>
      stdout (snd (validate_cs args w)) = ["Checksum validation SUCCEEDED!"]
  | Return (Some code) =>
      (code = 1 /\ exists checksum_file,
          args !! "checksum_file" = Some (VStr checksum_file)
          /\ stdout (snd (validate_cs args w))
             = ["Checksum file does not exist: " +:+ checksum_file])
      \/ (code = 2 /\ exists str_e,
            stdout (snd (validate_cs args w))
            = ["Checksum validation FAILED!"; str_e])
  end.
Proof.
  unfold validate_checksum. run_py.
  destruct (args !! "scm") as [[| | |scm|]|]; simpl; try reflexivity.
  destruct (args !! "project_root") as [[| | |project_root|]|]; simpl;
    try reflexivity.
  pose proof (stdout_differ_log scm project_root w) as Hl.
  destruct (get_differ scm project_root w) as [[d|e] l]; simpl in Hl |- *;
    [|exact Hl].
  destruct (args !! "checksum_file") as [[| | |checksum_file|]|]; simpl;
    rewrite ?stdout_app, ?Hl; try reflexivity.
  destruct (FS.exists_ w checksum_file); simpl; rewrite ?stdout_app, ?Hl.
  2:{ left. split; [reflexivity|]. exists checksum_file. by split. }
  destruct (FS.read_text w checksum_file) as [err|text]; simpl;
    rewrite ?stdout_app, ?Hl; [reflexivity|].
  destruct (ChecksumFile_parse _ text) as [m|err]; simpl;
    rewrite ?stdout_app, ?Hl; [|reflexivity].
  destruct (args !! "ignore_file_list_differences") as [[|b| | |]|]; simpl;
    rewrite ?stdout_app, ?Hl; try reflexivity.
  destruct (ChecksumFile_verify _ m (negb b) w) as [[]|[]]; simpl;
    rewrite ?stdout_app, ?Hl; try reflexivity.
  right. split; [reflexivity|]. by eexists.
Qed.

(** X4.  A manifest path that names a directory: [os.path.exists] says yes,
    so the handler does not return 1; [open] then raises
    [IsADirectoryError], which the handler lets through, before anything is
    parsed or verified and without printing. *)
Theorem manifest_is_a_directory (args : gmap string value)
    (scm project_root checksum_file : string) (ignore : bool) (w : FS.World)
    (d : Differ) (l : list event) (entries : list (string * FS.node)) :
  vc_args args scm project_root checksum_file ignore ->
  get_differ scm project_root w = (Return d, l) ->
  FS.resolve w checksum_file = inr (FS.Dir entries) ->
  validate_cs args w =
    (Raise (OSError FS.EISDIR checksum_file),
     l ++ [EvNew project_root d; EvExists checksum_file; EvOpenRead checksum_file])
  /\ stdout (snd (validate_cs args w)) = [].
Proof.
  intros Hargs Hd Hres.
  assert (Hrun : validate_cs args w =
    (Raise (OSError FS.EISDIR checksum_file),
     l ++ [EvNew project_root d; EvExists checksum_file; EvOpenRead checksum_file])).
  { eapply validate_unreadable; try done.
    - unfold FS.exists_. by rewrite Hres.
    - unfold FS.read_text. by rewrite Hres. }
  split; [exact Hrun|].
  rewrite Hrun. simpl. rewrite stdout_app.
  pose proof (stdout_differ_log scm project_root w) as Hl.
  rewrite Hd in Hl. simpl in Hl. rewrite Hl. reflexivity.
Qed.

End Reports.

Lemma manifest_is_a_directory_witness :
  validate_checksum string stub_parse (stub_verify (Return tt))
    (sample_args "directory" "proj" "proj") sample_world
  = (Raise (OSError FS.EISDIR "proj"),
     [EvNew "proj" DirectoryChecksumFileExistenceDiffer; EvExists "proj";
      EvOpenRead "proj"]).
Proof.
  destruct (manifest_is_a_directory string stub_parse (stub_verify (Return tt))
              (sample_args "directory" "proj" "proj")
              "directory" "proj" "proj" false sample_world
              DirectoryChecksumFileExistenceDiffer []
              [("a.txt", FS.File "hi"); ("b.txt", FS.File "bye")]) as [Hrun _].
  - repeat split; vm_compute; reflexivity.
  - reflexivity.
  - vm_compute. reflexivity.
  - exact Hrun.
Defined.

(* ===================================================================== *)
(** * Further properties of the parser *)
(* ===================================================================== *)



Lemma member_In (s : string) (l : list string) : member s l = true <-> In s l.
Proof.
  rewrite member_spec, bool_decide_eq_true. apply list_elem_of_In.
Qed.




(* ===================================================================== *)
(** * [main]: logging and dispatch *)
(* ===================================================================== *)

Lemma tok_ok_and (Q1 Q2 : Argument -> Prop) (cs : list (string * tclass)) :
  Forall (tok_ok Q1) cs -> Forall (tok_ok Q2) cs ->
  Forall (tok_ok (fun a => Q1 a /\ Q2 a)) cs.
Proof.
  intros H1 H2. induction cs as [|[s c] cs IH]; [constructor|].
  apply Forall_cons in H1 as [H1 H1']. apply Forall_cons in H2 as [H2 H2'].
  constructor; [|by apply IH]. unfold tok_ok in *. simpl in *. by destruct c.
Qed.

(** The top-level namespace under a parse that ended with a namespace: a
    property that every top-level option allowed by [Q] keeps, holds of it. *)
Lemma parse_args_top (p : ArgumentParser) (argv : list string)
    (ns0 : gmap string value) (Q : Argument -> Prop)
    (J : gmap string value -> Prop) :
  sub_required p = true ->
  (forall c a, lookup_option (option_table (help_action :: arguments p))
                 (String "-" (String c EmptyString)) = Some a -> Q a) ->
  (forall cs, classify (option_table (help_action :: arguments p)) argv = inr cs ->
              Forall (tok_ok Q) cs) ->
  (forall a, Q a -> dest a <> sub_dest p) ->
  (forall a val m, Q a -> written a val -> J m -> J (<[dest a := val]> m)) ->
  J (initial_namespace (help_action :: arguments p) [] {[ sub_dest p := VNone ]}) ->
  Argparse.parse_args p argv = Parsed ns0 ->
  exists name argv' sp subns top,
    find (fun sp => String.eqb (sp_name sp) name) (commands p) = Some sp
    /\ parse_known_args (help_action :: sp_arguments sp) (sp_defaults sp) argv'
       = Parsed (subns, [])
    /\ J top
    /\ ns0 = subns ∪ <[sub_dest p := VStr name]> top.
Proof.
  intros Hreq Hshort Hcls Hdest HJ Hinit. unfold Argparse.parse_args.
  set (args := help_action :: arguments p) in *.
  destruct (classify (option_table args) argv) as [|cs] eqn:Hc; [done|].
  match goal with
  | |- context [consume _ _ _ ?s0] => set (st0 := s0)
  end.
  destruct (consume (option_table args) (Some (run_subcommand p)) cs st0)
    as [st| |] eqn:Hrun; try done.
  intros Hend.
  pose (I := fun st : state =>
               member (sub_dest p) (seen st) = false /\ pending st = [] /\ J (ns st)).
  assert (HI : I st \/ exists f vals st1,
                 Some (run_subcommand p) = Some f /\ I st1
                 /\ vals `suffix_of` map fst cs /\ vals <> []
                 /\ f vals st1 = Parsed st).
  { refine (consume_inv (option_table args) _ Q I _ _ _ _ _ cs st0 st _ _ _).
    - exact Hshort.
    - intros s0 st1 (? & ? & ?). by repeat split.
    - intros n b st1 (? & ? & ?). by repeat split.
    - intros st1 p0 ps Hp (_ & Hnil & _). congruence.
    - intros a val st1 Ha Hw (Hm & Hp & Hj). repeat split; simpl; [|done|by apply HJ].
      specialize (Hdest _ Ha).
      destruct (String.eqb_spec (sub_dest p) (dest a)); [congruence|done].
    - by apply Hcls.
    - by repeat split.
    - exact Hrun. }
  destruct HI as [(Hm & _ & _)|(f & vals & st1 & [= <-] & (_ & _ & Hj) & _ & Hne & Hf)].
  { rewrite Hreq, Hm in Hend. simpl in Hend.
    destruct (missing_required args st); done. }
  unfold run_subcommand in Hf. destruct vals as [|name argv']; [done|].
  destruct (find _ (commands p)) as [sp|] eqn:Hfind; [|done].
  destruct (parse_known_args _ _ argv') as [[subns more]| |] eqn:Hsub; try done.
  injection Hf as <-. simpl in Hend.
  destruct (_ ++ _) as [|? ?]; [|done].
  destruct (extras st1 ++ more) as [|? ?] eqn:Hex; [|done].
  apply app_eq_nil in Hex as [_ ->]. injection Hend as <-.
  exists name, argv', sp, subns, (ns st1). by repeat split.
Qed.

Section MainDispatch.

Variable version : string.
Variable MODES : list string.
Variable Manifest : Type.
Variable ChecksumFile_parse : ChecksumFile -> string -> outcome Manifest.
Variable ChecksumFile_verify :
  ChecksumFile -> Manifest -> bool -> FS.World -> outcome unit.

Abbreviation main_cli :=
  (Cli.main version MODES Manifest ChecksumFile_parse ChecksumFile_verify).
Abbreviation call_cli :=
  (Cli.call Manifest ChecksumFile_parse ChecksumFile_verify).
Abbreviation top_args := (help_action :: arguments (Cli.parser version MODES)).

Lemma top_args_In (a : Argument) :
  In a top_args ->
  dest a <> "command"
  /\ (forall val, written a val -> dest a = "loglevel" /\ val = VInt DEBUG).
Proof.
  intros [<- | [<- | [<- | []]]]; split; try done;
    intros val Hw; unfold written in Hw; simpl in Hw; by subst.
Qed.

(** [loglevel] after a parse: [None], or DEBUG when [--debug] was given;
    [None] when no argument string starts with "--d". *)
Lemma cli_loglevel (argv : list string) (ns0 : gmap string value) :
  Cli.parse_args version MODES argv = Parsed ns0 ->
  (ns0 !! "loglevel" = Some VNone \/ ns0 !! "loglevel" = Some (VInt DEBUG))
  /\ (none_starts_with "--d" argv -> ns0 !! "loglevel" = Some VNone).
Proof.
  intros Hparse.
  assert (Hover : forall name sp argv' subns top,
             find (fun sp => String.eqb (sp_name sp) name)
               (commands (Cli.parser version MODES)) = Some sp ->
             parse_known_args (help_action :: sp_arguments sp) (sp_defaults sp) argv'
             = Parsed (subns, []) ->
             (subns ∪ <["command" := VStr name]> top) !! "loglevel"
             = top !! "loglevel").
  { intros name sp argv' subns top Hfind Hsub.
    apply find_some in Hfind as [Hin _].
    rewrite lookup_union_r.
    - by rewrite lookup_insert_ne.
    - rewrite (not_a_dest _ _ _ _ _ "loglevel"
                 (sub_args_dests version MODES sp "loglevel" Hin ltac:(tauto)) Hsub).
      simpl in Hin. destruct Hin as [<- | [<- | [<- | []]]]; reflexivity. }
  assert (Hall : forall cs, classify (option_table top_args) argv = inr cs ->
                            Forall (tok_ok (fun a => In a top_args)) cs).
  { intros cs. apply classify_all. intros o a. apply option_table_In. }
  split.
  - destruct (parse_args_top (Cli.parser version MODES) argv ns0
                (fun a => In a top_args)
                (fun m => m !! "loglevel" = Some VNone
                          \/ m !! "loglevel" = Some (VInt DEBUG)))
      as (name & argv' & sp & subns & top & Hfind & Hsub & Htop & ->); try done.
    + intros c a Hl. eapply option_table_In. by apply lookup_option_In.
    + intros a Ha. by apply top_args_In.
    + intros a val m Ha Hw _. destruct (top_args_In a Ha) as [_ Hval].
      destruct (Hval _ Hw) as [-> ->]. right. by rewrite lookup_insert_eq.
    + by left.
    + by rewrite (Hover _ _ _ _ _ Hfind Hsub).
  - intros Hnone.
    destruct (parse_args_top (Cli.parser version MODES) argv ns0
                (fun a => In a top_args /\ dest a <> "loglevel")
                (fun m => m !! "loglevel" = Some VNone))
      as (name & argv' & sp & subns & top & Hfind & Hsub & Htop & ->); try done.
    + intros c a Hl. split.
      * eapply option_table_In. by apply lookup_option_In.
      * by apply (short_option_behind (option_table top_args) "loglevel" "--d" c).
    + intros cs Hc. apply tok_ok_and; [by apply Hall|].
      by apply (classify_behind (option_table top_args) "loglevel" "d" argv);
        [vm_compute; lia| | |].
    + intros a [Ha _]. by apply top_args_In.
    + intros a val m [_ Ha] _ Hm. by rewrite lookup_insert_ne.
    + by rewrite (Hover _ _ _ _ _ Hfind Hsub).
Qed.

(** X6.  For every command line [parse_args] accepts, [main] calls the
    handler of the sub-command named by [command] on the namespace and
    returns what the handler returns (an exception of the handler leaves
    [main] unchanged).  Around the handler's own events the logger emits its
    two records exactly when [loglevel] is DEBUG, which needs an argument
    string that starts with "--d"; after an exception the closing record is
    not emitted. *)
Theorem main_runs_the_handler (argv : list string) (ns0 : gmap string value)
    (w : FS.World) :
  Cli.parse_args version MODES argv = Parsed ns0 ->
  exists (name : string) (h : handler) (debug : bool),
    ns0 !! "command" = Some (VStr name)
    /\ command_handler name = Some h
    /\ ns0 !! "loglevel" = Some (if debug then VInt DEBUG else VNone)
    /\ (none_starts_with "--d" argv -> debug = false)
    /\ main_cli argv w =
         match call_cli h ns0 w with
         | (Return code, l) => (Return code, log_before debug ++ l ++ log_after debug)
         | (Raise e, l) => (Raise e, log_before debug ++ l)
         end.
Proof.
  intros Hparse.
  destruct (cli_command version MODES _ _ Hparse) as
      (name & argv' & sp & subns & _ & Hsp & Hname & _ & Hcmd & _ & Hfunc & _).
  destruct (cli_loglevel _ _ Hparse) as [Hlv Hquiet].
  assert (Hh : exists h, command_handler name = Some h
                         /\ ns0 !! "func" = Some (VFunc h)).
  { rewrite Hfunc. simpl in Hsp.
    destruct Hsp as [<- | [<- | [<- | []]]]; simpl in Hname; subst name;
      eexists; split; reflexivity. }
  destruct Hh as (h & Hh & Hf).
  exists name, h,
    (match ns0 !! "loglevel" with Some (VInt _) => true | _ => false end).
  split; [done|]. split; [done|]. split; [by destruct Hlv as [-> | ->]|].
  split; [intros Hnone; by rewrite (Hquiet Hnone)|].
  unfold Cli.main, parsed, setup_logging, log. run_py. rewrite Hparse. simpl.
  destruct Hlv as [-> | ->]; simpl; rewrite Hf; simpl;
    destruct (call_cli h ns0 w) as [[code|e] l]; simpl;
    rewrite ?app_nil_r; reflexivity.
Qed.

End MainDispatch.

Lemma main_runs_the_handler_witness :
  Cli.main "0.1" spec_MODES string stub_parse (stub_verify (Return tt))
    ["validate-checksum"; "--scm"; "directory"; "proj"; "--checksum-file"; "nope.txt"]
    sample_world
  = (Return (Some 1),
     [EvNew "proj" DirectoryChecksumFileExistenceDiffer; EvExists "nope.txt";
      EvPrint "Checksum file does not exist: nope.txt"]).
Proof.
  set (argv := ["validate-checksum"; "--scm"; "directory"; "proj";
                "--checksum-file"; "nope.txt"]).
  set (r := Cli.parse_args "0.1" spec_MODES argv).
  destruct (main_runs_the_handler "0.1" spec_MODES string stub_parse
              (stub_verify (Return tt)) argv (namespace_of r) sample_world)
    as (name & h & debug & Hcmd & Hh & _ & Hquiet & Hmain).
  - apply parsed_ok. vm_compute. reflexivity.
  - assert (Hname : name = "validate-checksum").
    { assert (Hc : namespace_of r !! "command" = Some (VStr "validate-checksum"))
        by (vm_compute; reflexivity).
      rewrite Hc in Hcmd. by injection Hcmd. }
    subst name. injection Hh as <-.
    rewrite (Hquiet ltac:(repeat constructor)) in Hmain.
    rewrite Hmain. vm_compute. reflexivity.
Defined.

(* ===================================================================== *)
(** * A flag that is given *)
(* ===================================================================== *)

Lemma classify_split (tbl : list (string * Argument)) (pre : list string)
    (s : string) (c : tclass) (post : list string) (cs : list (string * tclass)) :
  "--" ∉ pre -> s <> "--" -> parse_optional tbl s = inr c ->
  classify tbl (pre ++ s :: post) = inr cs ->
  exists cs1 cs2, cs = cs1 ++ (s, c) :: cs2.
Proof.
  intros Hpre Hs Hp. revert cs Hpre.
  induction pre as [|x pre IH]; intros cs Hpre; simpl.
  - destruct (String.eqb_spec s "--"); [done|]. rewrite Hp.
    destruct (classify tbl post) as [|cs2]; [done|]. intros [= <-]. by exists [], cs2.
  - apply not_elem_of_cons in Hpre as [Hx Hpre].
    destruct (String.eqb_spec x "--"); [done|].
    destruct (parse_optional tbl x) as [|cx]; [done|].
    destruct (classify tbl (pre ++ s :: post)) as [|cs']; [done|]. intros [= <-].
    destruct (IH cs' Hpre eq_refl) as (cs1 & cs2 & ->).
    by exists ((x, cx) :: cs1), cs2.
Qed.

(** A [store_true] option that stands among the argument strings, before any
    [--], is stored as [True] by every parse that ends with a namespace. *)
Lemma store_true_given (args : list Argument) (defaults : list (string * value))
    (pre : list string) (s : string) (post : list string) (a : Argument)
    (m : gmap string value) (ex : list string) :
  "--" ∉ pre -> s <> "--" ->
  parse_optional (option_table args) s = inr (TO a s None) ->
  action a = StoreTrue ->
  (forall a', In a' args -> dest a' = dest a -> action a' = StoreTrue) ->
  parse_known_args args defaults (pre ++ s :: post) = Parsed (m, ex) ->
  m !! dest a = Some (VBool true).
Proof.
  intros Hpre Hs Hp Hact Hsame. unfold parse_known_args.
  set (tbl := option_table args) in *.
  destruct (classify tbl (pre ++ s :: post)) as [|cs] eqn:Hc; [done|].
  match goal with
  | |- context [consume _ _ _ ?s0] => set (st0 := s0)
  end.
  destruct (consume tbl None cs st0) as [st| |] eqn:Hrun; try done.
  destruct (missing_required args st); [|done]. intros [= <- <-].
  pose (Q := fun a' : Argument => In a' args).
  assert (Hall : Forall (tok_ok Q) cs).
  { revert Hc. apply classify_all. intros o a'. apply option_table_In. }
  assert (Hshort : forall c a', lookup_option tbl (String "-" (String c EmptyString))
                                = Some a' -> Q a').
  { intros c a' Hl. eapply option_table_In. by apply lookup_option_In. }
  assert (Hpos : Forall Q (filter is_positional args)).
  { apply Forall_forall. intros a' Ha'. apply list_elem_of_filter in Ha' as [_ Ha'].
    by apply list_elem_of_In. }
  destruct (classify_split _ _ _ _ _ _ Hpre Hs Hp Hc) as (cs1 & cs2 & ->).
  apply Forall_app in Hall as [Hcs1 Hcs2]. apply Forall_cons in Hcs2 as [_ Hcs2].
  pose (I0 := fun st : state => Forall Q (pending st)).
  assert (Hreached : exists st1, I0 st1
             /\ consume tbl None ((s, TO a s None) :: cs2) st1 = Parsed st).
  { refine (consume_reaches tbl None Q I0 _ _ _ _ _ cs1 _ cs2 st0 st eq_refl _ _ _ _);
      try done.
    - intros st1 p0 ps Hp0 HQ. unfold I0 in *. simpl. rewrite Hp0 in HQ.
      by apply Forall_cons in HQ. }
  destruct Hreached as (st1 & Hst1 & Hgo).
  cbn [consume] in Hgo. unfold takes_argument in Hgo. rewrite Hact in Hgo.
  cbn [take_all] in Hgo. unfold take_action in Hgo. rewrite Hact in Hgo.
  pose (I1 := fun st : state =>
                ns st !! dest a = Some (VBool true) /\ Forall Q (pending st)).
  assert (HI : I1 st \/ exists f vals st2,
                 None = Some f /\ I1 st2 /\ vals `suffix_of` map fst cs2 /\ vals <> []
                 /\ f vals st2 = Parsed st).
  { refine (consume_inv tbl None Q I1 _ _ _ _ _ cs2 _ st _ _ Hgo); try done.
    - intros st2 p0 ps Hp0 [Hv HQ]. simpl. rewrite Hp0 in HQ.
      apply Forall_cons in HQ as [? ?]. by repeat split.
    - intros a' val st2 Ha' Hw [Hv HQ]. split; [|done]. simpl.
      destruct (decide (dest a' = dest a)) as [Heq|Hne].
      + unfold written in Hw. rewrite (Hsame a' Ha' Heq) in Hw. subst val.
        by rewrite Heq, lookup_insert_eq.
      + by rewrite lookup_insert_ne.
    - split; [|done]. simpl. by rewrite lookup_insert_eq. }
  destruct HI as [[Hv _]|(f & ? & ? & ? & _)]; done.
Qed.

Section FlagGiven.

Variable version : string.
Variable MODES : list string.
Variable Manifest : Type.
Variable ChecksumFile_parse : ChecksumFile -> string -> outcome Manifest.
Variable ChecksumFile_verify :
  ChecksumFile -> Manifest -> bool -> FS.World -> outcome unit.

Abbreviation top_tbl :=
  (option_table (help_action :: arguments (Cli.parser version MODES))).

Lemma classify_debug (tops l : list string) :
  Forall (fun s => s = "--debug") tops ->
  classify top_tbl (tops ++ l)
  = match classify top_tbl l with
    | inl e => inl e
    | inr cs => inr (map (fun s => (s, TO arg_debug "--debug" None)) tops ++ cs)
    end.
Proof.
  induction 1 as [|x tops -> _ IH]; simpl app.
  - by destruct (classify top_tbl l).
  - change (classify top_tbl ("--debug" :: tops ++ l))
      with (match classify top_tbl (tops ++ l) with
            | inl e => inl e
            | inr cs => inr (("--debug", TO arg_debug "--debug" None) :: cs)
            end).
    rewrite IH. by destruct (classify top_tbl l).
Qed.

Lemma consume_debug (f : list string -> state -> result state)
    (tops : list string) (cs : list (string * tclass)) (st : state) :
  exists st1,
    consume top_tbl (Some f)
      (map (fun s => (s, TO arg_debug "--debug" None)) tops ++ cs) st
    = consume top_tbl (Some f) cs st1.
Proof.
  revert st. induction tops as [|x tops IH]; intros st; simpl map; simpl app.
  - by exists st.
  - cbn [consume]. change (takes_argument arg_debug) with false. cbv iota.
    cbn [take_all]. change (take_action arg_debug None (set_run 0 false st))
      with (Parsed (set_attr "loglevel" (VInt DEBUG) (set_run 0 false st))).
    cbv iota. apply IH.
Qed.

(** After any number of [--debug], the name of a sub-command hands the rest
    of the command line to that sub-command's parser. *)
Lemma command_after_debug (sp : SubParser) (tops rest : list string)
    (ns0 : gmap string value) :
  In sp (commands (Cli.parser version MODES)) ->
  Forall (fun s => s = "--debug") tops ->
  Cli.parse_args version MODES (tops ++ sp_name sp :: rest) = Parsed ns0 ->
  exists subns top,
    parse_known_args (help_action :: sp_arguments sp) (sp_defaults sp) rest
    = Parsed (subns, [])
    /\ ns0 = subns ∪ <["command" := VStr (sp_name sp)]> top.
Proof.
  intros Hsp Htops. unfold Cli.parse_args, Argparse.parse_args.
  change (option_table (help_action :: arguments (Cli.parser version MODES)))
    with top_tbl.
  rewrite (classify_debug tops _ Htops).
  assert (Hcls : classify top_tbl (sp_name sp :: rest)
                 = match classify top_tbl rest with
                   | inl e0 => inl e0
                   | inr cs => inr ((sp_name sp, TA) :: cs)
                   end).
  { simpl in Hsp. destruct Hsp as [<- | [<- | [<- | []]]]; reflexivity. }
  rewrite Hcls. destruct (classify top_tbl rest) as [e0|cs] eqn:Hc; [done|].
  match goal with
  | |- context [consume _ (Some ?f0) _ ?s0] =>
      destruct (consume_debug f0 tops ((sp_name sp, TA) :: cs) s0) as [st1 ->]
  end.
  cbn [consume]. unfold run_subcommand. cbn [map fst].
  rewrite (classify_fst _ _ _ Hc).
  assert (Hfind : find (fun sp0 => String.eqb (sp_name sp0) (sp_name sp))
                    (commands (Cli.parser version MODES)) = Some sp).
  { simpl in Hsp. destruct Hsp as [<- | [<- | [<- | []]]]; reflexivity. }
  rewrite Hfind.
  destruct (parse_known_args _ _ rest) as [[subns more]| |]; try done.
  cbn [ns extras seen].
  destruct (_ ++ _) as [|? ?]; [|done].
  destruct (extras st1 ++ more) as [|? ?] eqn:Hex; [|done].
  apply app_eq_nil in Hex as [_ ->]. intros [= <-]. by exists subns, (ns st1).
Qed.

(** X7.  When [--ignore-file-list-differences] stands among the arguments of
    validate-checksum, before any [--], then every command line that
    [parse_args] accepts has the attribute set to [True], and whenever the
    handler calls [verify] on that namespace it passes [diff=False]. *)
Theorem ignore_flag_turns_diff_off (tops pre post : list string)
    (ns0 : gmap string value) :
  Forall (fun s => s = "--debug") tops ->
  "--" ∉ pre ->
  Cli.parse_args version MODES
    (tops ++ "validate-checksum" :: pre ++ "--ignore-file-list-differences" :: post)
  = Parsed ns0 ->
  ns0 !! "ignore_file_list_differences" = Some (VBool true)
  /\ (forall w r d b,
        EvVerify r d b ∈ snd (validate_checksum Manifest ChecksumFile_parse
                                ChecksumFile_verify ns0 w) ->
        b = false).
Proof.
  intros Htops Hpre Hparse.
  assert (Hflag : ns0 !! "ignore_file_list_differences" = Some (VBool true)).
  { destruct (command_after_debug cmd_validate_checksum tops _ ns0
                ltac:(simpl; tauto) Htops Hparse) as (subns & top & Hsub & ->).
    apply lookup_union_Some_l.
    refine (store_true_given _ _ pre "--ignore-file-list-differences" post
              (nth 2 (sp_arguments cmd_validate_checksum) help_action)
              subns [] Hpre _ _ _ _ Hsub); try done.
    intros a' [<- | [<- | [<- | [<- | [<- | []]]]]]; done. }
  split; [done|]. intros w r d b Hin.
  apply validate_events in Hin as [_ Hb]. rewrite Hflag in Hb.
  injection Hb as Hb. by destruct b.
Qed.

End FlagGiven.

Lemma ignore_flag_turns_diff_off_witness :
  namespace_of
    (Cli.parse_args "0.1" spec_MODES
       ["--debug"; "validate-checksum"; "proj"; "--ignore-file-list-differences"])
  !! "ignore_file_list_differences" = Some (VBool true).
Proof.
  set (r := Cli.parse_args "0.1" spec_MODES
              ["--debug"; "validate-checksum"; "proj"; "--ignore-file-list-differences"]).
  apply (ignore_flag_turns_diff_off "0.1" spec_MODES string stub_parse
           (stub_verify (Return tt)) ["--debug"] ["proj"] [] (namespace_of r)).
  - by repeat constructor.
  - rewrite not_elem_of_cons. split; [done|]. apply not_elem_of_nil.
  - apply parsed_ok. vm_compute. reflexivity.
Defined.

(* ===================================================================== *)
(** * The exit status *)
(* ===================================================================== *)

Section ExitStatus.

Variable version : string.
Variable MODES : list string.
Variable Manifest : Type.
Variable ChecksumFile_parse : ChecksumFile -> string -> outcome Manifest.
Variable ChecksumFile_verify :
  ChecksumFile -> Manifest -> bool -> FS.World -> outcome unit.

(** The two methods of the checksum package do not end the interpreter
    themselves. *)
Hypothesis parse_no_exit :
  forall c text code, ChecksumFile_parse c text <> Raise (SystemExit code).
Hypothesis verify_no_exit :
  forall c m diff w code, ChecksumFile_verify c m diff w <> Raise (SystemExit code).

Abbreviation validate_x :=
  (validate_checksum Manifest ChecksumFile_parse ChecksumFile_verify).
Abbreviation main_x :=
  (Cli.main version MODES Manifest ChecksumFile_parse ChecksumFile_verify).

Lemma get_differ_raises (scm project_root : string) (w : FS.World) (e : exn) :
  fst (get_differ scm project_root w) = Raise e -> forall code, e <> SystemExit code.
Proof.
  unfold get_differ. destruct (String.eqb scm "auto").
  - unfold determine_differ_from_auto. run_py.
    destruct (FS.listdir w project_root) as [e'|names]; simpl.
    + by intros [= <-].
    + by destruct (member ".git" names).
  - destruct (dict_get DIFFER_MAP scm); simpl; [done|]. by intros [= <-].
Qed.

(** How [validate_checksum] can end. *)
Lemma validate_outcome (args : gmap string value) (w : FS.World) :
  fst (validate_x args w) = Return None
  \/ fst (validate_x args w) = Return (Some 1)
  \/ fst (validate_x args w) = Return (Some 2)
  \/ exists e, fst (validate_x args w) = Raise e /\ forall code, e <> SystemExit code.
Proof.
  assert (Hraise : forall e : exn, (forall code, e <> SystemExit code) ->
             @Raise (option Z) e = Return None \/ @Raise (option Z) e = Return (Some 1)
             \/ @Raise (option Z) e = Return (Some 2)
             \/ exists e', @Raise (option Z) e = Raise e'
                           /\ forall code, e' <> SystemExit code).
  { intros e He. right. right. right. by exists e. }
  unfold validate_checksum. run_py.
  destruct (args !! "scm") as [[| | |scm|]|]; simpl; try by apply Hraise.
  destruct (args !! "project_root") as [[| | |project_root|]|]; simpl;
    try by apply Hraise.
  pose proof (get_differ_raises scm project_root w) as Hd.
  destruct (get_differ scm project_root w) as [[d|e] l]; simpl in Hd |- *.
  2:{ apply Hraise. by apply Hd. }
  destruct (args !! "checksum_file") as [[| | |checksum_file|]|]; simpl;
    try by apply Hraise.
  destruct (FS.exists_ w checksum_file); simpl; [|tauto].
  destruct (FS.read_text w checksum_file) as [err|text]; simpl; [by apply Hraise|].
  pose proof (parse_no_exit {| root := project_root; differ := d |} text) as Hp.
  destruct (ChecksumFile_parse _ text) as [m|err]; simpl.
  2:{ apply Hraise. intros code ->. by apply (Hp code). }
  destruct (args !! "ignore_file_list_differences") as [[|b| | |]|]; simpl;
    try by apply Hraise.
  pose proof (verify_no_exit {| root := project_root; differ := d |} m (negb b) w)
    as Hv.
  destruct (ChecksumFile_verify _ m (negb b) w) as [[]|[]]; simpl;
    try tauto; try by apply Hraise.
  exfalso. by apply (Hv code).
Qed.

(** [main] ends the way the handler it calls ends. *)
Lemma main_result (argv : list string) (ns0 : gmap string value) (w : FS.World) :
  Cli.parse_args version MODES argv = Parsed ns0 ->
  exists h, fst (main_x argv w)
            = fst (Cli.call Manifest ChecksumFile_parse ChecksumFile_verify h ns0 w).
Proof.
  intros Hparse.
  destruct (cli_command version MODES _ _ Hparse) as
      (name & argv' & sp & subns & _ & Hsp & _ & _ & _ & [lv Hlv] & Hfunc & _).
  assert (Hh : exists h, ns0 !! "func" = Some (VFunc h)).
  { rewrite Hfunc. simpl in Hsp.
    destruct Hsp as [<- | [<- | [<- | []]]]; eexists; reflexivity. }
  destruct Hh as [h Hf]. exists h.
  unfold Cli.main, parsed, setup_logging, log. run_py. rewrite Hparse. simpl.
  rewrite Hlv. simpl.
  destruct lv as [| |z| |]; simpl.
  all: repeat match goal with
         | |- context [Z.leb ?a ?b] => destruct (Z.leb a b)
         end; simpl.
  all: rewrite Hf; simpl.
  all: destruct (Cli.call Manifest ChecksumFile_parse ChecksumFile_verify h ns0 w)
         as [[code|e] l]; reflexivity.
Qed.

(** X8.  Provided the checksum package does not itself raise [SystemExit],
    the exit status of the program is 0, 1 or 2 for every command line and
    file system.  Status 2 has two sources, a command line that argparse
    refuses and a handler that returned 2; status 1 likewise, a handler that
    returned 1 and an exception nobody caught. *)
Theorem exit_status_of_main (argv : list string) (w : FS.World) :
  (exit_status (fst (main_x argv w)) = 0
   \/ exit_status (fst (main_x argv w)) = 1
   \/ exit_status (fst (main_x argv w)) = 2)
  /\ (exit_status (fst (main_x argv w)) = 2 ->
      (exists e, Cli.parse_args version MODES argv = Error e)
      \/ fst (main_x argv w) = Return (Some 2))
  /\ (exit_status (fst (main_x argv w)) = 1 ->
      fst (main_x argv w) = Return (Some 1)
      \/ exists e, fst (main_x argv w) = Raise e /\ forall code, e <> SystemExit code).
Proof.
  destruct (Cli.parse_args version MODES argv) as [ns0|e|p] eqn:Hparse.
  - destruct (main_result argv ns0 w Hparse) as [h ->].
    destruct h; simpl.
    + destruct (validate_outcome ns0 w) as [-> | [-> | [-> | (e & -> & He)]]];
        simpl; repeat split; try tauto; try discriminate.
      * destruct e; try tauto. by destruct (He code).
      * destruct e; try discriminate. intros _. by destruct (He code).
      * intros _. right. by exists e.
    + repeat split; try tauto; discriminate.
    + repeat split; try tauto; discriminate.
  - unfold Cli.main, parsed. run_py. rewrite Hparse. simpl.
    repeat split; try tauto; try discriminate. intros _. left. by exists e.
  - unfold Cli.main, parsed. run_py. rewrite Hparse.
    destruct p; simpl; repeat split; try tauto; discriminate.
Qed.

End ExitStatus.

Lemma exit_status_of_main_witness :
  exit_status (fst (Cli.main "0.1" spec_MODES string stub_parse
                      (stub_verify (Raise (ChecksumMismatch "a.txt")))
                      ["validate-checksum"; "proj"] sample_world)) = 2
  /\ fst (Cli.main "0.1" spec_MODES string stub_parse
            (stub_verify (Raise (ChecksumMismatch "a.txt")))
            ["validate-checksum"; "proj"] sample_world) = Return (Some 2).
Proof.
  assert (Hstatus : exit_status (fst (Cli.main "0.1" spec_MODES string stub_parse
                      (stub_verify (Raise (ChecksumMismatch "a.txt")))
                      ["validate-checksum"; "proj"] sample_world)) = 2)
    by (vm_compute; reflexivity).
  split; [exact Hstatus|].
  destruct (exit_status_of_main "0.1" spec_MODES string stub_parse
              (stub_verify (Raise (ChecksumMismatch "a.txt")))
              ltac:(discriminate) ltac:(discriminate)
              ["validate-checksum"; "proj"] sample_world) as (_ & Htwo & _).
  destruct (Htwo Hstatus) as [[e He]|Hr]; [|exact Hr].
  assert (Hp : is_parsed (Cli.parse_args "0.1" spec_MODES ["validate-checksum"; "proj"])
               = true) by (vm_compute; reflexivity).
  rewrite He in Hp. discriminate Hp.
Defined.
